(** * Tennis predictor: bracket flattening, symmetrization and labelling

    A shallow embedding of the data-preparation code of the repository
    ([src/dataprocessor.py], [src/datacombiner.py], [src/featuresbuilder.py])
    together with the properties of it that the specification states.

    Conventions of the embedding.
    - Python [str] values are [string]s of ASCII code points; [lower] and
      the case-insensitive regular expression act on the letters A-Z.
    - A JSON scalar is a [value]; an absent dictionary key and [None] are
      kept apart wherever the code tells them apart ([d[k]] against
      [d.get(k)]).
    - A Python exception is a [Raise e] outcome; code that logs threads a
      list of log records; code that mutates the bracket document returns
      the document it leaves behind. *)

From Stdlib Require Import ZArith Ascii String Lia.
From stdpp Require Import gmap strings list fin_maps pretty sorting.

Local Open Scope Z_scope.
Set Warnings "-clear-no-such-hyp".
Set Default Proof Using "Type".


(** ** Python strings *)

Module PyStr.

(** [s.startswith(p)] *)
Fixpoint startswith (p s : string) : bool :=
  match p, s with
  | EmptyString, _ => true
  | String a p', String b s' => if Ascii.eqb a b then startswith p' s' else false
  | String _ _, EmptyString => false
  end.

(** [sub in s] *)
Fixpoint contains (sub s : string) : bool :=
  startswith sub s ||
  match s with
  | EmptyString => false
  | String _ s' => contains sub s'
  end.

(** [s.replace(old, new)] for a non-empty [old] (both call sites pass a
    four-letter word): scan from the left, and where [old] starts emit
    [new] and skip the matched characters.  [skip] counts the
    characters of the current match that are still to be dropped. *)
Fixpoint replace_from (old new : string) (skip : nat) (s : string) : string :=
  match s with
  | EmptyString => EmptyString
  | String c s' =>
      match skip with
      | S k => replace_from old new k s'
      | O =>
          if startswith old s
          then new +:+ replace_from old new (Nat.pred (String.length old)) s'
          else String c (replace_from old new 0 s')
      end
  end.

Definition replace (old new s : string) : string := replace_from old new 0 s.

(** [s.split(sep)] for a one-character separator; never the empty list. *)
Fixpoint split (sep : ascii) (s : string) : list string :=
  match s with
  | EmptyString => [EmptyString]
  | String c s' =>
      if Ascii.eqb c sep then EmptyString :: split sep s'
      else match split sep s' with
           | hd :: tl => String c hd :: tl
           | [] => [String c EmptyString]
           end
  end.

Definition is_upper (c : ascii) : bool :=
  let n := nat_of_ascii c in (65 <=? n)%nat && (n <=? 90)%nat.

Definition lower_char (c : ascii) : ascii :=
  if is_upper c then ascii_of_nat (nat_of_ascii c + 32) else c.

(** [s.lower()] *)
Fixpoint lower (s : string) : string :=
  match s with
  | EmptyString => EmptyString
  | String c s' => String (lower_char c) (lower s')
  end.

(** Characters that [int] strips from both ends of its argument. *)
Definition is_space (c : ascii) : bool :=
  let n := nat_of_ascii c in
  ((9 <=? n)%nat && (n <=? 13)%nat) || (n =? 32)%nat.

Fixpoint lstrip (s : string) : string :=
  match s with
  | String c s' => if is_space c then lstrip s' else s
  | EmptyString => EmptyString
  end.

(** Drop trailing white space: a character is kept when something that
    is kept follows it or when it is not white space. *)
Fixpoint rstrip (s : string) : string :=
  match s with
  | EmptyString => EmptyString
  | String c s' =>
      match rstrip s' with
      | EmptyString => if is_space c then EmptyString else String c EmptyString
      | r => String c r
      end
  end.

Definition strip (s : string) : string := rstrip (lstrip s).

Definition digit (c : ascii) : option Z :=
  let n := nat_of_ascii c in
  if ((48 <=? n)%nat && (n <=? 57)%nat)%bool then Some (Z.of_nat n - 48) else None.

(** Decimal digits with single underscores allowed between digits.
    [acc] is the value read so far, [prev] tells whether the previous
    character was a digit. *)
Fixpoint digits (acc : Z) (prev : bool) (s : string) : option Z :=
  match s with
  | EmptyString => if prev then Some acc else None
  | String c s' =>
      match digit c with
      | Some d => digits (10 * acc + d) true s'
      | None =>
          if (Ascii.eqb c "_" && prev)%bool
          then match s' with
               | EmptyString => None
               | String c' _ =>
                   match digit c' with
                   | Some _ => digits acc false s'
                   | None => None
                   end
               end
          else None
      end
  end.

(** [int(s)] in base ten: surrounding white space, an optional sign,
    then digits.  [None] stands for the [ValueError] it raises.  (The
    cap CPython puts on the number of digits is not modelled.) *)
Definition int (s : string) : option Z :=
  match strip s with
  | String "+" r => digits 0 false r
  | String "-" r => Z.opp <$> digits 0 false r
  | r => digits 0 false r
  end.

End PyStr.

(** ** Values, exceptions, logging *)

(** JSON scalars as Python sees them after [json.load]; [VList] is the
    list of event ids a block carries. *)
Inductive value :=
  | VNone
  | VBool (b : bool)
  | VInt (z : Z)
  | VStr (s : string)
  | VList (l : list Z).

Global Instance value_eq_dec : EqDecision value.
Proof. solve_decision. Defined.

(** Truth value of an object in a condition. *)
Definition truthy (v : value) : bool :=
  match v with
  | VNone => false
  | VBool b => b
  | VInt z => negb (z =? 0)
  | VStr s => negb (String.eqb s "")
  | VList l => match l with [] => false | _ => true end
  end.

Inductive exn :=
  | ValueError (msg : string)
  | KeyError (key : string)
  | TypeError
  | AttributeError.

Inductive outcome (A : Type) :=
  | Ok (a : A)
  | Raise (e : exn).
Arguments Ok {A} a.
Arguments Raise {A} e.

Global Instance result_ret : MRet outcome := fun _ a => Ok a.

Global Instance result_bind : MBind outcome := fun _ _ k r =>
  match r with
  | Ok a => k a
  | Raise e => Raise e
  end.

(** ** [dataprocessor.py]: round classifier and score validator *)

(** [re.search(r'qualification|qualifying', s, re.IGNORECASE)]: the
    pattern is an alternation of two lower-case words, and ignoring case
    a word matches at a position exactly when the lower-cased text
    carries it there. *)
Definition re_search_ignorecase (alternatives : list string) (s : string) : bool :=
  existsb (fun w => PyStr.contains w (PyStr.lower s)) alternatives.

Definition round_map : gmap string string :=
  list_to_map
    [ ("R128", "R128"); ("R64", "R64"); ("R32", "R32"); ("R16", "R16");
      ("Quarterfinals", "QF"); ("Quarterfinal", "QF");
      ("Semifinals", "SF"); ("Semifinal", "SF"); ("Final", "F");
      ("1/32", "R32"); ("1/16", "R16"); ("1/8", "R8");
      ("Qualification", "Q"); ("Qualification round 1", "Q");
      ("Qualification round 2", "Q"); ("Qualification Final", "Q");
      ("Qualification final", "Q");
      ("Round of 128", "R128"); ("Round of 64", "R64");
      ("Round of 32", "R32"); ("Round of 16", "R16") ].

(** [map_round_description].  The argument is whatever the round's
    ['description'] key holds; a value that is true in a condition but is
    not text makes [re.search] raise [TypeError]. *)
Definition map_round_description (round_description : value) : outcome string :=
  if negb (truthy round_description) then Ok ""
  else match round_description with
       | VStr s =>
           if re_search_ignorecase ["qualification"; "qualifying"] s then Ok "Q"
           else match round_map !! s with
                | Some code => Ok code
                | None => Raise (ValueError ("Unknown round description: " +:+ s))
                end
       | _ => Raise TypeError
       end.

(** [re.compile(r'^[0-3]:[0-3]$').match(s)]: a digit 0-3, a colon, a
    digit 0-3, then the end of the text; [$] also matches just before a
    final line feed. *)
Definition in_0_3 (c : ascii) : bool :=
  let n := nat_of_ascii c in (48 <=? n)%nat && (n <=? 51)%nat.

Definition re_match_score (s : string) : bool :=
  match s with
  | String a (String c (String b rest)) =>
      in_0_3 a && Ascii.eqb c ":" && in_0_3 b &&
      (String.eqb rest "" || String.eqb rest (String "010" ""))
  | _ => false
  end.

(** [validate_score_format]: [score and pattern.match(score)]. *)
Definition validate_score_format (score : value) : outcome bool :=
  if negb (truthy score) then Ok false
  else match score with
       | VStr s => Ok (re_match_score s)
       | _ => Raise TypeError
       end.

(** ** The bracket document

    A dictionary of the document is its scalar entries (a [gmap] from key
    to [value]) next to the nested entries the code walks into.  An
    entry that the code reads with a default is an [option]: [None] is
    the absent key. *)

(** [participant]: ['team'] is a dictionary when present. *)
Record Participant := {
  team : option (gmap string value);
  p_attrs : gmap string value       (* 'winner', 'order', 'teamSeed', ... *)
}.

Record Block := {
  b_fields : gmap string value;     (* 'id', 'finished', 'result', scores, ... *)
  participants : option (list Participant)
}.

Record Round := {
  r_fields : gmap string value;     (* 'description', ... *)
  blocks : option (list Block)
}.

(** One row of the frame [process_cuptree_json] builds.  The
    ['tournament'] cell carries both names, as the fetcher stores it;
    [rounds] is [None] when the cell is not a list. *)
Record Bracket := {
  tournamentName : value;
  uniqueTournamentName : value;
  rounds : option (list Round)
}.

Global Instance Participant_eq_dec : EqDecision Participant.
Proof. solve_decision. Defined.
Global Instance Block_eq_dec : EqDecision Block.
Proof. solve_decision. Defined.
Global Instance Round_eq_dec : EqDecision Round.
Proof. solve_decision. Defined.
Global Instance Bracket_eq_dec : EqDecision Bracket.
Proof. solve_decision. Defined.

(** [d.get(k)]: [None] for an absent key. *)
Definition get (d : gmap string value) (k : string) : value :=
  default VNone (d !! k).

(** [d[k]]: [KeyError] for an absent key. *)
Definition getitem (d : gmap string value) (k : string) : outcome value :=
  match d !! k with
  | Some v => Ok v
  | None => Raise (KeyError k)
  end.

(** [a + b] where [b] is text: concatenation for text, [TypeError]
    otherwise. *)
Definition add_str (a b : value) : outcome value :=
  match a, b with
  | VStr x, VStr y => Ok (VStr (x +:+ y))
  | _, _ => Raise TypeError
  end.

(** ** Roster extraction: [get_all_participants] *)

Record ParticipantRecord := {
  pr_name : value; pr_slug : value; pr_shortName : value; pr_gender : value;
  pr_nameCode : value; pr_ranking : value; pr_disabled : value;
  pr_national : value; pr_id : value
}.

Global Instance ParticipantRecord_eq_dec : EqDecision ParticipantRecord.
Proof. solve_decision. Defined.

Definition roster_columns : list string :=
  ["name"; "slug"; "shortName"; "gender"; "nameCode"; "ranking"; "disabled";
   "national"; "id"].

(** The three assignments [team['winner'] = ...], [team['order'] = ...],
    [team['teamSeed'] = ...]. *)
Definition stamp_team (p : Participant) (t : gmap string value) : gmap string value :=
  <["teamSeed" := get (p_attrs p) "teamSeed"]>
    (<["order" := get (p_attrs p) "order"]>
       (<["winner" := get (p_attrs p) "winner"]> t)).

(** One participant: the team dictionary (a fresh empty one when the
    participant has none) receives the three keys and is appended.  When
    the dictionary belongs to the participant, the participant now holds
    the stamped dictionary. *)
Definition visit_participant (p : Participant) : Participant * gmap string value :=
  match team p with
  | Some t =>
      let t' := stamp_team p t in
      ({| team := Some t'; p_attrs := p_attrs p |}, t')
  | None => (p, stamp_team p ∅)
  end.

Fixpoint visit_participants (ps : list Participant)
  : list Participant * list (gmap string value) :=
  match ps with
  | [] => ([], [])
  | p :: ps' =>
      let '(p', t) := visit_participant p in
      let '(ps'', ts) := visit_participants ps' in
      (p' :: ps'', t :: ts)
  end.

Definition visit_block (b : Block) : Block * list (gmap string value) :=
  match participants b with
  | Some ps =>
      let '(ps', ts) := visit_participants ps in
      ({| b_fields := b_fields b; participants := Some ps' |}, ts)
  | None => (b, [])
  end.

Fixpoint visit_blocks (bs : list Block) : list Block * list (gmap string value) :=
  match bs with
  | [] => ([], [])
  | b :: bs' =>
      let '(b', ts) := visit_block b in
      let '(bs'', ts') := visit_blocks bs' in
      (b' :: bs'', ts ++ ts')
  end.

Definition visit_round (r : Round) : Round * list (gmap string value) :=
  match blocks r with
  | Some bs =>
      let '(bs', ts) := visit_blocks bs in
      ({| r_fields := r_fields r; blocks := Some bs' |}, ts)
  | None => (r, [])
  end.

Fixpoint visit_rounds (rs : list Round) : list Round * list (gmap string value) :=
  match rs with
  | [] => ([], [])
  | r :: rs' =>
      let '(r', ts) := visit_round r in
      let '(rs'', ts') := visit_rounds rs' in
      (r' :: rs'', ts ++ ts')
  end.

(** The loop over [cuptrees['rounds']]: a cell that is not a list cannot
    be iterated, and the brackets before it have already been visited. *)
Fixpoint visit_brackets (cs : list Bracket)
  : list Bracket * outcome (list (gmap string value)) :=
  match cs with
  | [] => ([], Ok [])
  | c :: cs' =>
      match rounds c with
      | None => (cs, Raise TypeError)
      | Some rs =>
          let '(rs', ts) := visit_rounds rs in
          let c' := {| tournamentName := tournamentName c;
                       uniqueTournamentName := uniqueTournamentName c;
                       rounds := Some rs' |} in
          let '(cs'', r) := visit_brackets cs' in
          (c' :: cs'', ts' ← r; Ok (ts ++ ts'))
      end
  end.

(** [frame[columns]]: the first requested column that no row carries is
    a [KeyError]. *)
Definition has_column (rows : list (gmap string value)) (c : string) : bool :=
  existsb (fun r => bool_decide (is_Some (r !! c))) rows.

Definition missing_column (rows : list (gmap string value)) (cols : list string)
  : option string :=
  List.find (fun c => negb (has_column rows c)) cols.

Definition project_participant (t : gmap string value) : ParticipantRecord :=
  {| pr_name := get t "name"; pr_slug := get t "slug";
     pr_shortName := get t "shortName"; pr_gender := get t "gender";
     pr_nameCode := get t "nameCode"; pr_ranking := get t "ranking";
     pr_disabled := get t "disabled"; pr_national := get t "national";
     pr_id := get t "id" |}.

(** [drop_duplicates()]: keep the first of the rows that agree in every
    column. *)
Fixpoint drop_duplicates {A} `{EqDecision A} (seen : list A) (l : list A) : list A :=
  match l with
  | [] => []
  | x :: l' =>
      if bool_decide (x ∈ seen) then drop_duplicates seen l'
      else x :: drop_duplicates (x :: seen) l'
  end.

(** [get_all_participants]: the document it leaves and the roster.
    Reading the ['rounds'] column fails when no bracket has one. *)
Definition get_all_participants (cuptrees : list Bracket)
  : list Bracket * outcome (list ParticipantRecord) :=
  if forallb (fun c => bool_decide (rounds c = None)) cuptrees
  then (cuptrees, Raise (KeyError "rounds"))
  else
    let '(cuptrees', r) := visit_brackets cuptrees in
    (cuptrees',
     participants_list ← r;
     match missing_column participants_list roster_columns with
     | Some c => Raise (KeyError c)
     | None => Ok (drop_duplicates [] (project_participant <$> participants_list))
     end).

(** ** Match extraction: [extract_games_from_cuptree] *)

Inductive log_record :=
  | LogError (msg : string).

(** [str(v)] inside an f-string. *)
Definition fmt_list (l : list Z) : string :=
  "[" +:+ String.concat ", " (pretty <$> l) +:+ "]".

Definition py_str (v : value) : string :=
  match v with
  | VNone => "None"
  | VBool true => "True"
  | VBool false => "False"
  | VInt z => pretty z
  | VStr s => s
  | VList l => fmt_list l
  end.

Definition skip_results : list string := ["retired"; "walkover"; "0:0"].
Definition sentinel_results : list string := ["home won"; "away won"; "on-going"].

(** [block.get('result') and block.get('result').lower() in [...]]:
    only text has [lower]. *)
Definition is_skipped (r : value) : outcome bool :=
  if truthy r then
    match r with
    | VStr s => Ok (bool_decide (PyStr.lower s ∈ skip_results))
    | _ => Raise AttributeError
    end
  else Ok false.

(** [block.get('result') in ['home won', 'away won', 'on-going']] *)
Definition is_sentinel (r : value) : bool :=
  match r with
  | VStr s => bool_decide (s ∈ sentinel_results)
  | _ => false
  end.

(** [block['homeTeamScore'] + ':' + block['awayTeamScore']], evaluated
    from the left. *)
Definition score_string (fields : gmap string value) : outcome value :=
  h ← getitem fields "homeTeamScore";
  hc ← add_str h (VStr ":");
  a ← getitem fields "awayTeamScore";
  add_str hc a.

(** The [elif] branch: the assignment [block['result'] = ...] writes into
    the block of the document. *)
Definition rewrite_result (b : Block) : outcome Block :=
  if is_sentinel (get (b_fields b) "result") then
    s ← score_string (b_fields b);
    Ok {| b_fields := <["result" := s]> (b_fields b);
          participants := participants b |}
  else Ok b.

(** [participants[i]['team'].get('id')] *)
Definition team_id (p : Participant) : outcome value :=
  match team p with
  | Some t => Ok (get t "id")
  | None => Raise (KeyError "team")
  end.

(** From [participants = block.get('participants', [])] to
    [games_list.append(block_copy)], on the block as the rewrite left
    it.  [None] is the [continue] of a block without participants. *)
Definition emit_block (round_description tournament unique : value) (b : Block)
  : outcome (option (gmap string value)) :=
  match default [] (participants b) with
  | [] => Ok None
  | p0 :: rest =>
      home_id ← team_id p0;
      away_id ← match rest with
                | [] => Ok VNone
                | p1 :: _ => team_id p1
                end;
      code ← map_round_description round_description;
      Ok (Some (<["uniqueTournament" := unique]>
                 (<["tournamentName" := tournament]>
                    (<["round_description" := VStr code]>
                       (<["away_id" := away_id]>
                          (<["home_id" := home_id]> (b_fields b)))))))
  end.

(** The body of the loop over blocks.  It yields the block as the
    document now holds it, the records logged, and what was appended. *)
Definition extract_block (round_description tournament unique : value) (b : Block)
  : Block * list log_record * outcome (option (gmap string value)) :=
  match is_skipped (get (b_fields b) "result") with
  | Raise e => (b, [], Raise e)
  | Ok true => (b, [], Ok None)
  | Ok false =>
      match rewrite_result b with
      | Raise e => (b, [], Raise e)
      | Ok b1 =>
          let r := get (b_fields b1) "result" in
          match validate_score_format r with
          | Raise e => (b1, [], Raise e)
          | Ok valid =>
              let logged :=
                if valid then []
                else [LogError ("Invalid score format: " +:+ py_str r)] in
              (b1, logged, emit_block round_description tournament unique b1)
          end
      end
  end.

Fixpoint extract_blocks (round_description tournament unique : value) (bs : list Block)
  : list Block * list log_record * outcome (list (gmap string value)) :=
  match bs with
  | [] => ([], [], Ok [])
  | b :: bs' =>
      let '(b', lg, r) := extract_block round_description tournament unique b in
      match r with
      | Raise e => (b' :: bs', lg, Raise e)
      | Ok g =>
          let '(bs'', lg', r') := extract_blocks round_description tournament unique bs' in
          (b' :: bs'', lg ++ lg', gs ← r'; Ok (option_list g ++ gs))
      end
  end.

(** [round_item.get('description', {})]: the default, an empty
    dictionary, is false in a condition like [None]. *)
Definition extract_round (tournament unique : value) (r : Round)
  : Round * list log_record * outcome (list (gmap string value)) :=
  match blocks r with
  | None => (r, [], Ok [])
  | Some bs =>
      let '(bs', lg, res) :=
        extract_blocks (get (r_fields r) "description") tournament unique bs in
      ({| r_fields := r_fields r; blocks := Some bs' |}, lg, res)
  end.

Fixpoint extract_rounds (tournament unique : value) (rs : list Round)
  : list Round * list log_record * outcome (list (gmap string value)) :=
  match rs with
  | [] => ([], [], Ok [])
  | r :: rs' =>
      let '(r', lg, res) := extract_round tournament unique r in
      match res with
      | Raise e => (r' :: rs', lg, Raise e)
      | Ok gs =>
          let '(rs'', lg', res') := extract_rounds tournament unique rs' in
          (r' :: rs'', lg ++ lg', gs' ← res'; Ok (gs ++ gs'))
      end
  end.

Definition extract_bracket (c : Bracket)
  : Bracket * list log_record * outcome (list (gmap string value)) :=
  match rounds c with
  | None => (c, [], Ok [])
  | Some rs =>
      let '(rs', lg, res) :=
        extract_rounds (tournamentName c) (uniqueTournamentName c) rs in
      ({| tournamentName := tournamentName c;
          uniqueTournamentName := uniqueTournamentName c;
          rounds := Some rs' |}, lg, res)
  end.

Fixpoint extract_brackets (cs : list Bracket)
  : list Bracket * list log_record * outcome (list (gmap string value)) :=
  match cs with
  | [] => ([], [], Ok [])
  | c :: cs' =>
      let '(c', lg, res) := extract_bracket c in
      match res with
      | Raise e => (c' :: cs', lg, Raise e)
      | Ok gs =>
          let '(cs'', lg', res') := extract_brackets cs' in
          (c' :: cs'', lg ++ lg', gs' ← res'; Ok (gs ++ gs'))
      end
  end.

Record MatchRecord := {
  finished : value; result_ : value; homeTeamScore : value;
  awayTeamScore : value; id_ : value; events : value; seriesStartDate : value;
  home_id : value; away_id : value; round_description : value;
  mr_tournamentName : value; uniqueTournament : value
}.

Global Instance MatchRecord_eq_dec : EqDecision MatchRecord.
Proof. solve_decision. Defined.

(** [pd.to_datetime(..., unit='s', errors='coerce')] on the timestamps
    of the blocks, which are integers or missing: a timestamp is kept as
    its seconds since the epoch, one outside the range of a nanosecond
    timestamp and a missing one become the null date.  (What pandas
    makes of a timestamp given as text is not modelled: it is the null
    date here.) *)
Definition to_datetime_s (v : value) : value :=
  match v with
  | VInt z =>
      if (-9223372036 <=? z) && (z <=? 9223372036) then VInt z else VNone
  | _ => VNone
  end.

(** A row of the normalized frame; a key the block lacks is null. *)
Definition match_record (g : gmap string value) : MatchRecord :=
  {| finished := get g "finished"; result_ := get g "result";
     homeTeamScore := get g "homeTeamScore";
     awayTeamScore := get g "awayTeamScore";
     id_ := get g "id"; events := get g "events";
     seriesStartDate := to_datetime_s (get g "seriesStartDateTimestamp");
     home_id := get g "home_id"; away_id := get g "away_id";
     round_description := get g "round_description";
     mr_tournamentName := get g "tournamentName";
     uniqueTournament := get g "uniqueTournament" |}.

(** The columns of the final selection that come from the blocks. *)
Definition block_columns : list string :=
  ["finished"; "result"; "homeTeamScore"; "awayTeamScore"; "id"; "events"].

(** The frame built from [games_list]: empty when nothing was appended,
    otherwise the selected columns. *)
Definition games_frame (games_list : list (gmap string value))
  : outcome (list MatchRecord) :=
  match games_list with
  | [] => Ok []
  | _ =>
      match missing_column games_list block_columns with
      | Some c => Raise (KeyError c)
      | None => Ok (match_record <$> games_list)
      end
  end.

Definition extract_games_from_cuptree (cuptrees : list Bracket)
  : list Bracket * list log_record * outcome (list MatchRecord) :=
  let '(cuptrees', lg, res) := extract_brackets cuptrees in
  (cuptrees', lg, games_list ← res; games_frame games_list).

(** ** [process_all_data] *)

Record Tables := {
  tbl_participants : list ParticipantRecord;
  tbl_games : list MatchRecord
}.

(** The loop over the files: each file is a list of brackets; the roster
    is extracted first, the matches next, from the same loaded document. *)
Fixpoint process_files (files : list (list Bracket))
  : list (list Bracket) * list log_record
    * outcome (list (list ParticipantRecord) * list (list MatchRecord)) :=
  match files with
  | [] => ([], [], Ok ([], []))
  | f :: files' =>
      let '(f1, rp) := get_all_participants f in
      match rp with
      | Raise e => (f1 :: files', [], Raise e)
      | Ok ps =>
          let '(f2, lg, rg) := extract_games_from_cuptree f1 in
          match rg with
          | Raise e => (f2 :: files', lg, Raise e)
          | Ok gs =>
              let '(files'', lg', r) := process_files files' in
              (f2 :: files'', lg ++ lg',
               '(pl, gl) ← r; Ok (ps :: pl, gs :: gl))
          end
      end
  end.

Inductive run_error :=
  | FileNotFoundError
  | Exn (e : exn).

(** [process_all_data]: [files] are the loaded ['cuptrees*.json']
    documents in directory order.  Without files nothing is loaded. *)
Definition process_all_data (max_cuptrees : option nat) (files : list (list Bracket))
  : list (list Bracket) * list log_record * (run_error + Tables) :=
  match files with
  | [] => ([], [], inl FileNotFoundError)
  | _ =>
      let chosen := match max_cuptrees with
                    | Some n => take n files
                    | None => files
                    end in
      let '(docs, lg, r) := process_files chosen in
      (docs, lg,
       match r with
       | Raise e => inl (Exn e)
       | Ok (pl, gl) =>
           inr {| tbl_participants := drop_duplicates [] (concat pl);
                  tbl_games := concat gl |}
       end)
  end.

(** ** [datacombiner.py] *)

(** *** Calendar dates

    [pd.Timestamp("YYYY-MM-DD").value] is the number of nanoseconds from
    the epoch to that midnight; the day count is the proleptic Gregorian
    one. *)
Definition days_from_civil (y m d : Z) : Z :=
  let y' := if m <=? 2 then y - 1 else y in
  let era := y' / 400 in
  let yoe := y' - era * 400 in
  let mp := if m >? 2 then m - 3 else m + 9 in
  let doy := (153 * mp + 2) / 5 + d - 1 in
  let doe := yoe * 365 + yoe / 4 - yoe / 100 + doy in
  era * 146097 + doe - 719468.

Definition seconds_per_day : Z := 86400.

Definition Timestamp_value (y m d : Z) : Z :=
  days_from_civil y m d * seconds_per_day * 10 ^ 9.

(** [pd.to_datetime(t, unit='s').normalize()], as seconds since the
    epoch: the midnight that starts the day of [t]. *)
Definition normalize (t : Z) : Z := t - t mod seconds_per_day.

(** *** The random draw

    [np.random.seed(seed)] followed by [np.random.randint(low, high,
    size)] is a fixed function of its four arguments.  The embedding
    takes that function as given, with the two facts NumPy documents of
    it: it returns [size] integers, each from [low] (inclusive) to
    [high] (exclusive) when [low < high]. *)
Record Generator := {
  randint : Z → Z → Z → nat → list Z;
  randint_length : ∀ seed low high size,
    length (randint seed low high size) = size;
  randint_range : ∀ seed low high size x,
    low < high → x ∈ randint seed low high size → low ≤ x < high
}.

Definition birth_low : Z := Timestamp_value 1970 1 1 / 10 ^ 9.
Definition birth_high : Z := Timestamp_value 2005 12 31 / 10 ^ 9.

(** [random_birthdates] of [participant_features]. *)
Definition random_birthdates (G : Generator) (num_participants : nat) : list Z :=
  normalize <$> randint G 42 birth_low birth_high num_participants.

(** [participant_features]: the roster with its ['birthdate'] column. *)
Definition participant_features (G : Generator) (participants : list ParticipantRecord)
  : list (ParticipantRecord * Z) :=
  zip participants (random_birthdates G (length participants)).

(** *** Frames

    A frame is its column names in order, its row labels, and one list of
    cells per column. *)
Record DataFrame := {
  columns : list string;
  index : list nat;
  series : gmap string (list value)
}.

Definition nrows (df : DataFrame) : nat := length (index df).

(** A frame is well formed when its column names are distinct, its
    cells are those of its columns, and every column has a cell per
    row. *)
Definition wf_frame (df : DataFrame) : Prop :=
  NoDup (columns df) ∧
  dom (series df) = list_to_set (columns df) ∧
  map_Forall (λ _ cells, length cells = nrows df) (series df).

Global Instance wf_frame_dec (df : DataFrame) : Decision (wf_frame df).
Proof. unfold wf_frame. apply _. Defined.

(** [df[c]] for a column of the frame. *)
Definition column (df : DataFrame) (c : string) : list value :=
  default [] (series df !! c).

(** Row [i] of a frame, by position. *)
Definition row_at (df : DataFrame) (i : nat) : gmap string value :=
  omap (λ cells : list value, cells !! i) (series df).

(** [reverse_result], the inner function of [symmetrize_games]. *)
Definition reverse_result (result : value) : value :=
  match result with
  | VStr s =>
      if PyStr.contains ":" s then
        match PyStr.split ":" s with
        | p0 :: p1 :: _ => VStr (p1 +:+ ":" +:+ p0)
        | _ => result
        end
      else result
  | _ => result
  end.

(** One turn of the loop over [df.columns]: both right-hand sides are
    read from [df], then [swapped[col]] and the counterpart are
    assigned, in that order. *)
Definition swap_step (df : DataFrame) (swapped : gmap string (list value))
    (col : string) : gmap string (list value) :=
  if PyStr.contains "home" col then
    let away_col := PyStr.replace "home" "away" col in
    if bool_decide (away_col ∈ columns df)
    then <[away_col := column df col]> (<[col := column df away_col]> swapped)
    else swapped
  else if PyStr.contains "away" col then
    let home_col := PyStr.replace "away" "home" col in
    if bool_decide (home_col ∈ columns df)
    then <[home_col := column df col]> (<[col := column df home_col]> swapped)
    else swapped
  else swapped.

Definition swap_columns (df : DataFrame) : gmap string (list value) :=
  foldl (swap_step df) (series df) (columns df).

(** [pd.concat([a, b], ignore_index=True)] for two frames with the same
    columns: the rows of [a], then the rows of [b], labelled afresh. *)
Definition concat_rows (a b : DataFrame) : DataFrame :=
  {| columns := columns a;
     index := seq 0 (nrows a + nrows b);
     series := map_zip_with (λ x y : list value, x ++ y) (series a) (series b) |}.

(** [reset_index(drop=True)] *)
Definition reset_index (df : DataFrame) : DataFrame :=
  {| columns := columns df; index := seq 0 (nrows df); series := series df |}.

(** The frame [swapped] once the loop has run and its ['result'] column
    has been assigned. *)
Definition swapped_frame (df : DataFrame) (results : list value) : DataFrame :=
  {| columns := columns df;
     index := index df;
     series := <["result" := reverse_result <$> results]> (swap_columns df) |}.

(** [symmetrize_games]; [df['result']] fails when the frame has no such
    column. *)
Definition symmetrize_games (df : DataFrame) : outcome DataFrame :=
  match series df !! "result" with
  | None => Raise (KeyError "result")
  | Some results => Ok (reset_index (concat_rows df (swapped_frame df results)))
  end.

(** The columns of the frame [combine_data] hands to
    [symmetrize_games]: those of the games table, then ['id'], ['name'],
    ['birthdate'] of the roster with the suffix of each merge. *)
Definition games_columns : list string :=
  ["finished"; "result"; "homeTeamScore"; "awayTeamScore"; "id"; "events";
   "seriesStartDate"; "home_id"; "away_id"; "round_description";
   "tournamentName"; "uniqueTournament"].

Definition add_suffix (suffix : string) (cols : list string) : list string :=
  (λ c, c +:+ suffix) <$> cols.

Definition enriched_columns : list string :=
  games_columns
    ++ add_suffix "_home" ["id"; "name"; "birthdate"]
    ++ add_suffix "_away" ["id"; "name"; "birthdate"].

(** ** [featuresbuilder.py] *)

Definition ordinal_mapping : gmap string Z :=
  list_to_map
    [ ("Q1", 1); ("Q2", 2); ("Q", 3); ("R128", 4); ("R64", 5); ("R32", 6);
      ("R16", 7); ("R8", 8); ("QF", 9); ("SF", 10); ("F", 11) ].

Definition tournament_surfaces : gmap string string :=
  list_to_map [ ("Australian Open", "Hard"); ("Roland Garros", "Clay") ].

(** [define_label]: the records it logs and its outcome. *)
Definition define_label (result : value) : list log_record * outcome string :=
  let invalid :=
    let msg := "Invalid result format: " +:+ py_str result in
    ([LogError msg], Raise (ValueError msg)) in
  match result with
  | VStr s =>
      if PyStr.contains ":" s then
        match PyStr.split ":" s with
        | p0 :: p1 :: _ =>
            match PyStr.int p0 with
            | None => ([], Raise (ValueError ("invalid literal for int(): " +:+ p0)))
            | Some h =>
                match PyStr.int p1 with
                | None => ([], Raise (ValueError ("invalid literal for int(): " +:+ p1)))
                | Some a => ([], Ok (if h >? a then "home" else "away"))
                end
            end
        | _ => invalid
        end
      else invalid
  | _ => invalid
  end.

(** [Series.apply(f)] for an [f] that may raise: cell by cell, stopping
    at the first exception. *)
Fixpoint apply_labels (cells : list value) : list log_record * outcome (list value) :=
  match cells with
  | [] => ([], Ok [])
  | v :: cells' =>
      let '(lg, r) := define_label v in
      match r with
      | Raise e => (lg, Raise e)
      | Ok l =>
          let '(lg', r') := apply_labels cells' in
          (lg ++ lg', ls ← r'; Ok (VStr l :: ls))
      end
  end.

(** [Series.map(d)] with a dictionary: a cell that is not a key of [d]
    becomes the missing value; nothing is raised. *)
Definition series_map {A} (d : gmap string A) (inj : A → value) (cells : list value)
  : list value :=
  (λ v, match v with
        | VStr s => match d !! s with Some x => inj x | None => VNone end
        | _ => VNone
        end) <$> cells.

(** Order of [sort_values] on a column of date texts, missing values
    last. *)
Definition date_le (a b : value) : Prop :=
  match a, b with
  | VStr x, VStr y => String.le x y
  | VStr _, _ => True
  | _, VStr _ => False
  | _, _ => True
  end.

Global Instance date_le_dec : RelDecision date_le.
Proof. intros [] []; simpl; apply _. Defined.

Definition keyed_le (p q : value * nat) : Prop := date_le p.1 q.1.

Global Instance keyed_le_dec : RelDecision keyed_le.
Proof. intros p q; unfold keyed_le; apply _. Defined.

(** [data.sort_values(by=c)]: the rows in the order of their keys.  (The
    order pandas gives rows with equal keys is not fixed; a merge sort
    stands for it.) *)
Definition sort_values (by_ : string) (df : DataFrame) : outcome DataFrame :=
  match series df !! by_ with
  | None => Raise (KeyError by_)
  | Some keys =>
      let order :=
        snd <$> merge_sort keyed_le (zip keys (seq 0 (length keys))) in
      let pick {A} (d : A) (l : list A) := (λ i, default d (l !! i)) <$> order in
      Ok {| columns := columns df;
            index := pick 0%nat (index df);
            series := (λ cells, pick VNone cells) <$> series df |}
  end.

Definition getcol (df : DataFrame) (c : string) : outcome (list value) :=
  match series df !! c with
  | Some cells => Ok cells
  | None => Raise (KeyError c)
  end.

(** The categories [pd.get_dummies] makes indicator columns for: the
    distinct texts of the column in sorted order; a missing value has no
    category. *)
Definition categories (cells : list value) : list string :=
  merge_sort String.le
    (drop_duplicates [] (omap (λ v, match v with VStr s => Some s | _ => None end) cells)).

Definition indicator (cat : string) (cells : list value) : list value :=
  (λ v, VBool (bool_decide (v = VStr cat))) <$> cells.

(** [str(e)] of the [KeyError] a missing column raises. *)
Definition key_error_text (e : exn) : string :=
  match e with
  | KeyError k => "'" +:+ k +:+ "'"
  | ValueError msg => msg
  | _ => ""
  end.

(** A [try] block of [build_features]: a [KeyError] from the column
    access is logged and raised again as a [ValueError]. *)
Definition try_column (data : DataFrame) (c what : string)
  : list log_record * outcome (list value) :=
  match getcol data c with
  | Ok cells => ([], Ok cells)
  | Raise e =>
      let msg := what +:+ key_error_text e in
      ([LogError msg], Raise (ValueError msg))
  end.

(** [build_features].  The age columns and the month encodings are
    arithmetic on dates and floating-point numbers and are left out of
    the frame; the date columns they need are read all the same, so
    their absence is the same [KeyError].

    The two [try] blocks catch the [KeyError] of a missing column;
    [Series.map] itself never raises one.

    [pd.to_datetime] raises on a date it cannot parse, which the
    embedding, leaving the date arithmetic out, does not: a property
    that states a success of [build_features] is stated for date cells
    that parse ([date_cell_ok]). *)
Definition build_features (combined_data : DataFrame)
  : list log_record * outcome DataFrame :=
  match sort_values "seriesStartDate" combined_data with
  | Raise e => ([], Raise e)
  | Ok data =>
      match getcol data "result" with
      | Raise e => ([], Raise e)
      | Ok results =>
          let '(lg, labelled) := apply_labels results in
          match (labels ← labelled;
                 id_home ← getcol data "id_home";
                 id_away ← getcol data "id_away";
                 _ ← getcol data "birthdate_home";
                 _ ← getcol data "birthdate_away";
                 Ok (labels, id_home, id_away)) with
          | Raise e => (lg, Raise e)
          | Ok (labels, id_home, id_away) =>
              match try_column data "uniqueTournament"
                      "Unknown tournament surface: " with
              | (lg1, Raise e) => (lg ++ lg1, Raise e)
              | (lg1, Ok tournaments) =>
                  let surface := series_map tournament_surfaces VStr tournaments in
                  match try_column data "round_description"
                          "Unknown round description: " with
                  | (lg2, Raise e) => (lg ++ lg1 ++ lg2, Raise e)
                  | (lg2, Ok rounds_) =>
                      let round_ordinal :=
                        series_map ordinal_mapping VInt rounds_ in
                      let cats := categories surface in
                      (lg ++ lg1 ++ lg2,
                       Ok {| columns :=
                               ["result"; "id_home"; "id_away"; "round_ordinal"]
                                 ++ ((λ c, "surface_" +:+ c) <$> cats);
                             index := index data;
                             series :=
                               list_to_map
                                 ([("result", labels); ("id_home", id_home);
                                   ("id_away", id_away);
                                   ("round_ordinal", round_ordinal)]
                                    ++ ((λ c, ("surface_" +:+ c,
                                               indicator c surface)) <$> cats)) |})
                  end
              end
          end
      end
  end.

(** ** Notions the properties are stated with *)

(** [w] occurs in [s] up to the case of letters: some stretch of [s]
    lower-cases to [w]. *)
Definition occurs_ignoring_case (w s : string) : Prop :=
  ∃ pre mid post, s = pre +:+ mid +:+ post ∧ PyStr.lower mid = w.

Definition is_qualifying (s : string) : Prop :=
  occurs_ignoring_case "qualification" s ∨ occurs_ignoring_case "qualifying" s.

(** A participant, a block and a bracket of the shape the fetcher
    stores, for the worked examples: the block is the final of one
    bracket and has two participants. *)
Definition sample_participant (team_id : Z) (name : string) (ranking : Z) : Participant :=
  {| team := Some (list_to_map
                     [("id", VInt team_id); ("name", VStr name);
                      ("slug", VStr name); ("shortName", VStr name);
                      ("gender", VStr "M"); ("nameCode", VStr name);
                      ("ranking", VInt ranking); ("disabled", VBool false);
                      ("national", VBool false)]);
     p_attrs := list_to_map [("winner", VBool false); ("order", VInt 1)] |}.

Definition sample_block_with (ps : list Participant)
    (result home_score away_score : value) : Block :=
  {| b_fields := list_to_map
                   [("id", VInt 501); ("finished", VBool true);
                    ("result", result); ("homeTeamScore", home_score);
                    ("awayTeamScore", away_score); ("events", VList [9001]);
                    ("seriesStartDateTimestamp", VInt 1706400000)];
     participants := Some ps |}.

Definition sample_block (result home_score away_score : value) : Block :=
  sample_block_with [sample_participant 11 "Sinner J." 4;
                     sample_participant 12 "Medvedev D." 3]
    result home_score away_score.

Definition sample_bracket (description : string) (bs : list Block) : Bracket :=
  {| tournamentName := VStr "Australian Open, Melbourne";
     uniqueTournamentName := VStr "Australian Open";
     rounds := Some [ {| r_fields := {[ "description" := VStr description ]};
                         blocks := Some bs |} ] |}.

(** The blocks of a document, and a document with every block changed
    by [f]. *)
Definition round_blocks (r : Round) : list Block := default [] (blocks r).

Definition bracket_blocks (c : Bracket) : list Block :=
  default [] (rounds c) ≫= round_blocks.

Definition map_round_blocks (f : Block → Block) (r : Round) : Round :=
  {| r_fields := r_fields r; blocks := (λ bs : list Block, f <$> bs) <$> blocks r |}.

Definition map_blocks (f : Block → Block) (c : Bracket) : Bracket :=
  {| tournamentName := tournamentName c;
     uniqueTournamentName := uniqueTournamentName c;
     rounds := (λ rs : list Round, map_round_blocks f <$> rs) <$> rounds c |}.

(** A block without its ['result'] entry. *)
Definition forget_result (b : Block) : Block :=
  {| b_fields := delete "result" (b_fields b); participants := participants b |}.

(** A block whose teams are without the three stamped entries. *)
Definition forget_stamp (t : gmap string value) : gmap string value :=
  delete "teamSeed" (delete "order" (delete "winner" t)).

Definition forget_stamp_participant (p : Participant) : Participant :=
  {| team := forget_stamp <$> team p; p_attrs := p_attrs p |}.

Definition forget_stamps (b : Block) : Block :=
  {| b_fields := b_fields b;
     participants :=
       (λ ps : list Participant, forget_stamp_participant <$> ps) <$> participants b |}.

(** Columns [m] for the rows of [df]: the same names, a cell per row. *)
Definition same_shape (df : DataFrame) (m : gmap string (list value)) : Prop :=
  dom m = dom (series df) ∧
  map_Forall (λ _ cells, length cells = nrows df) m.

(** The column a column changes places with in the mirrored rows. *)
Definition counterpart (c : string) : string :=
  if PyStr.contains "home" c then PyStr.replace "home" "away" c
  else if PyStr.contains "away" c then PyStr.replace "away" "home" c
  else c.

(** The assignments one turn of the swap loop makes, as (target,
    source) pairs, and the source of the last assignment to a column. *)
Definition swap_assignments (cols : list string) (col : string)
  : list (string * string) :=
  if PyStr.contains "home" col then
    let away_col := PyStr.replace "home" "away" col in
    if bool_decide (away_col ∈ cols) then [(col, away_col); (away_col, col)] else []
  else if PyStr.contains "away" col then
    let home_col := PyStr.replace "away" "home" col in
    if bool_decide (home_col ∈ cols) then [(col, home_col); (home_col, col)] else []
  else [].

Definition assign (df : DataFrame) (swapped : gmap string (list value))
    (a : string * string) : gmap string (list value) :=
  <[a.1 := column df a.2]> swapped.

Fixpoint last_source (plan : list (string * string)) (c : string) : option string :=
  match plan with
  | [] => None
  | (target, source) :: plan' =>
      match last_source plan' c with
      | Some s => Some s
      | None => if bool_decide (target = c) then Some source else None
      end
  end.

(** The two numbers of a result "H:A" as [define_label] reads them. *)
Definition score_parts (r : value) : option (Z * Z) :=
  match r with
  | VStr s =>
      match PyStr.split ":" s with
      | p0 :: p1 :: _ =>
          h ← PyStr.int p0; a ← PyStr.int p1; Some (h, a)
      | _ => None
      end
  | _ => None
  end.

(** A frame from rows given as dictionaries, and an enriched row for
    the worked examples. *)
Definition frame_of_rows (cols : list string) (rows : list (gmap string value))
  : DataFrame :=
  {| columns := cols;
     index := seq 0 (length rows);
     series := list_to_map ((λ c, (c, (λ r, get r c) <$> rows)) <$> cols) |}.

Definition sample_enriched_row (result tournament : string) : gmap string value :=
  list_to_map
    [("finished", VBool true); ("result", VStr result);
     ("homeTeamScore", VInt 3); ("awayTeamScore", VInt 1);
     ("id", VInt 501); ("events", VStr "[9001]");
     ("seriesStartDate", VStr "2024-01-28"); ("home_id", VInt 11);
     ("away_id", VInt 12); ("round_description", VStr "F");
     ("tournamentName", VStr tournament); ("uniqueTournament", VStr tournament);
     ("id_home", VInt 11); ("name_home", VStr "Sinner J.");
     ("birthdate_home", VStr "2001-08-16");
     ("id_away", VInt 12); ("name_away", VStr "Medvedev D.");
     ("birthdate_away", VStr "1996-02-11")].

(** A generator to run the examples with: a congruential sequence
    folded into the range.  It stands for no particular algorithm. *)
Definition sample_draw (seed low high : Z) (i : nat) : Z :=
  low + (seed * 1103515245 + Z.of_nat i * 12345) mod (high - low).

Definition sample_generator : Generator.
Proof.
  refine {| randint := λ seed low high size,
                         sample_draw seed low high <$> seq 0 size |}.
  - intros. by rewrite length_fmap, length_seq.
  - intros seed low high size x Hlt (i & -> & _)%list_elem_of_fmap.
    unfold sample_draw.
    pose proof (Z.mod_pos_bound (seed * 1103515245 + Z.of_nat i * 12345)
                  (high - low)).
    lia.
Defined.

(** ** [model_trainer.py]: the label column

    [train_model] reads the ['result'] column of the features and maps
    it with [{'away': 0, 'home': 1}]; the fit itself is outside the
    embedding. *)
Definition label_codes : gmap string Z :=
  list_to_map [ ("away", 0); ("home", 1) ].

Definition training_labels (features : DataFrame) : outcome (list value) :=
  y ← getcol features "result";
  Ok (series_map label_codes VInt y).

(** The team dictionaries roster extraction comes by, in the order of
    the walk: the dictionary of each participant, the empty one where a
    participant has none. *)
Definition block_teams (b : Block) : list (gmap string value) :=
  (λ p, default ∅ (team p)) <$> default [] (participants b).

Definition doc_teams (doc : list Bracket) : list (gmap string value) :=
  (doc ≫= bracket_blocks) ≫= block_teams.

(** The characters a score is made of. *)
Definition score_digits : list ascii := ["0"; "1"; "2"; "3"]%char.

(** Blocks that agree in what match extraction reads: their entries,
    and the team ids of their participants. *)
Definition same_ids (p p' : Participant) : Prop := team_id p = team_id p'.

Definition same_block (b b' : Block) : Prop :=
  b_fields b = b_fields b' ∧
  Forall2 same_ids (default [] (participants b)) (default [] (participants b')).

Definition same_round (r r' : Round) : Prop :=
  r_fields r = r_fields r' ∧
  match blocks r, blocks r' with
  | Some bs, Some bs' => Forall2 same_block bs bs'
  | None, None => True
  | _, _ => False
  end.

Definition same_bracket (c c' : Bracket) : Prop :=
  tournamentName c = tournamentName c' ∧
  uniqueTournamentName c = uniqueTournamentName c' ∧
  match rounds c, rounds c' with
  | Some rs, Some rs' => Forall2 same_round rs rs'
  | None, None => True
  | _, _ => False
  end.

(** What every dictionary appended for a bracket carries: the names of
    the bracket and a round code that is empty or has an ordinal. *)
Definition emitted_for (tournament unique : value) (g : gmap string value) : Prop :=
  get g "tournamentName" = tournament ∧
  get g "uniqueTournament" = unique ∧
  ∃ code, get g "round_description" = VStr code ∧
          (code = "" ∨ is_Some (ordinal_mapping !! code)).

(** The order [sort_values] puts the rows in, and a column put in an
    order. *)
Definition sort_order (keys : list value) : list nat :=
  snd <$> merge_sort keyed_le (zip keys (seq 0 (length keys))).

Definition reorder {A} (d : A) (order : list nat) (l : list A) : list A :=
  (λ i, default d (l !! i)) <$> order.


Definition is_label (v : value) : Prop := v = VStr "home" ∨ v = VStr "away".

(** The document as roster extraction leaves it: every participant
    that has a team dictionary has the three entries written into it. *)
Definition stamp_participant (p : Participant) : Participant :=
  {| team := stamp_team p <$> team p; p_attrs := p_attrs p |}.

Definition stamp_block (b : Block) : Block :=
  {| b_fields := b_fields b;
     participants :=
       (λ ps : list Participant, stamp_participant <$> ps) <$> participants b |}.

(** A block as match extraction leaves it once it has dealt with it: the
    result replaced by the score when the result is one of the three
    status texts and both scores are text, the block itself otherwise. *)
Definition overwritten (b : Block) : Block :=
  match get (b_fields b) "result",
        b_fields b !! "homeTeamScore", b_fields b !! "awayTeamScore" with
  | VStr s, Some (VStr h), Some (VStr a) =>
      if bool_decide (s ∈ sentinel_results)
      then {| b_fields := <["result" := VStr (h +:+ ":" +:+ a)]> (b_fields b);
              participants := participants b |}
      else b
  | _, _, _ => b
  end.

Definition loaded_or_overwritten (b b' : Block) : Prop :=
  b' = b ∨ b' = overwritten b.

(** Documents that agree in everything but their blocks, which are
    related by [R] one by one. *)
Definition rel_round (R : Block → Block → Prop) (r r' : Round) : Prop :=
  r_fields r = r_fields r' ∧
  match blocks r, blocks r' with
  | Some bs, Some bs' => Forall2 R bs bs'
  | None, None => True
  | _, _ => False
  end.

Definition rel_bracket (R : Block → Block → Prop) (c c' : Bracket) : Prop :=
  tournamentName c = tournamentName c' ∧
  uniqueTournamentName c = uniqueTournamentName c' ∧
  match rounds c, rounds c' with
  | Some rs, Some rs' => Forall2 (rel_round R) rs rs'
  | None, None => True
  | _, _ => False
  end.






(** A result the label function accepts whose text stays below the
    number of digits [int] converts. *)
Definition labelled_result (r : value) : Prop :=
  is_Some (score_parts r) ∧
  match r with VStr s => (String.length s ≤ 4300)%nat | _ => True end.

Global Instance labelled_result_dec (r : value) : Decision (labelled_result r).
Proof. unfold labelled_result. destruct r; apply _. Defined.


(** * Properties *)

(** ** Strings *)

Section StringFacts.

Lemma app_nil_l (s : string) : "" +:+ s = s.
Proof. reflexivity. Qed.

Lemma app_cons (a : ascii) (s t : string) :
  String a s +:+ t = String a (s +:+ t).
Proof. reflexivity. Qed.

Lemma app_nil_r (s : string) : s +:+ "" = s.
Proof. induction s as [|a s IH]; [done|]. by rewrite app_cons, IH. Qed.

Lemma app_assoc (s t u : string) : (s +:+ t) +:+ u = s +:+ t +:+ u.
Proof. induction s as [|a s IH]; [done|]. by rewrite !app_cons, IH. Qed.

Lemma lower_app (s t : string) :
  PyStr.lower (s +:+ t) = PyStr.lower s +:+ PyStr.lower t.
Proof. induction s as [|a s IH]; [done|]. simpl. by rewrite !app_cons, IH. Qed.

Lemma startswith_spec (p s : string) :
  PyStr.startswith p s = true ↔ ∃ post, s = p +:+ post.
Proof.
  revert s. induction p as [|a p IH]; intros s.
  - simpl. split; [intros _; by exists s | done].
  - destruct s as [|b s]; simpl.
    + split; [done | intros [post H]; discriminate H].
    + destruct (Ascii.eqb a b) eqn:E.
      * apply Ascii.eqb_eq in E as ->. rewrite IH.
        split; intros [post H]; exists post.
        -- by rewrite app_cons, H.
        -- rewrite app_cons in H. by inversion H.
      * apply Ascii.eqb_neq in E.
        split; [done | intros [post H]]. rewrite app_cons in H.
        inversion H. congruence.
Qed.

Lemma contains_spec (sub s : string) :
  PyStr.contains sub s = true ↔ ∃ pre post, s = pre +:+ sub +:+ post.
Proof.
  induction s as [|a s IH]; simpl.
  - rewrite orb_false_r, startswith_spec. split.
    + intros [post H]. by exists "", post.
    + intros [pre [post H]]. destruct pre; [by exists post|discriminate H].
  - rewrite orb_true_iff, IH, startswith_spec. split.
    + intros [[post H]|[pre [post H]]].
      * by exists "", post.
      * exists (String a pre), post. by rewrite app_cons, H.
    + intros [pre [post H]]. destruct pre as [|b pre].
      * left. by exists post.
      * right. rewrite app_cons in H. inversion H. by exists pre, post.
Qed.

(** The lower-cased text starts with [w] exactly when a prefix of the
    text lower-cases to [w]. *)
Lemma startswith_lower (w s : string) :
  PyStr.startswith w (PyStr.lower s) = true
  ↔ ∃ mid post, s = mid +:+ post ∧ PyStr.lower mid = w.
Proof.
  revert s. induction w as [|a w IH]; intros s.
  - simpl. split; [intros _; by exists "", s | done].
  - destruct s as [|b s]; simpl.
    + split; [done|]. intros (mid & post & H & Hl).
      destruct mid; discriminate.
    + destruct (Ascii.eqb a (PyStr.lower_char b)) eqn:E.
      * apply Ascii.eqb_eq in E as ->. rewrite IH. split.
        -- intros (mid & post & -> & <-). by exists (String b mid), post.
        -- intros (mid & post & H & Hl). destruct mid as [|c mid]; [done|].
           rewrite app_cons in H. inversion H; subst.
           simpl in Hl. inversion Hl. by exists mid, post.
      * apply Ascii.eqb_neq in E. split; [done|].
        intros (mid & post & H & Hl). destruct mid as [|c mid]; [done|].
        rewrite app_cons in H. inversion H; subst.
        simpl in Hl. inversion Hl. congruence.
Qed.

Lemma contains_lower (w s : string) :
  PyStr.contains w (PyStr.lower s) = true ↔ occurs_ignoring_case w s.
Proof.
  unfold occurs_ignoring_case. induction s as [|a s IH]; simpl.
  - rewrite orb_false_r. change "" with (PyStr.lower "") at 1.
    rewrite startswith_lower. split.
    + intros (mid & post & H & Hl). by exists "", mid, post.
    + intros (pre & mid & post & H & Hl).
      destruct pre; [by exists mid, post | discriminate H].
  - change (String (PyStr.lower_char a) (PyStr.lower s))
      with (PyStr.lower (String a s)).
    rewrite orb_true_iff, IH, startswith_lower. split.
    + intros [(mid & post & H & Hl)|(pre & mid & post & H & Hl)].
      * by exists "", mid, post.
      * exists (String a pre), mid, post. by rewrite app_cons, H.
    + intros (pre & mid & post & H & Hl). destruct pre as [|b pre].
      * left. by exists mid, post.
      * right. rewrite app_cons in H. inversion H. by exists pre, mid, post.
Qed.

End StringFacts.

(** ** Round classifier *)

Lemma re_search_qualifying (s : string) :
  re_search_ignorecase ["qualification"; "qualifying"] s = true ↔ is_qualifying s.
Proof.
  unfold re_search_ignorecase, is_qualifying. simpl.
  rewrite orb_false_r, orb_true_iff, !contains_lower. done.
Qed.

Lemma truthy_str (s : string) : s ≠ "" → truthy (VStr s) = true.
Proof. intros H. simpl. by destruct (String.eqb_spec s ""). Qed.

Lemma map_round_description_text (s : string) :
  s ≠ "" →
  map_round_description (VStr s)
  = if re_search_ignorecase ["qualification"; "qualifying"] s then Ok "Q"
    else match round_map !! s with
         | Some code => Ok code
         | None => Raise (ValueError ("Unknown round description: " +:+ s))
         end.
Proof. intros H. unfold map_round_description. by rewrite truthy_str. Qed.

(** C4. The round classifier returns the empty code for an empty (or
    missing) label; returns [Q] for every label in which "qualification"
    or "qualifying" occurs up to case, whatever else the label is;
    otherwise returns the code the fixed table gives the label, so
    "Quarterfinal" is [QF] and "1/8" is [R8]; and raises the error that
    names the unknown label for every other non-empty label. *)
Theorem map_round_description_classifies :
  map_round_description (VStr "") = Ok "" ∧
  map_round_description VNone = Ok "" ∧
  (∀ s, s ≠ "" → is_qualifying s → map_round_description (VStr s) = Ok "Q") ∧
  (∀ s code, s ≠ "" → ¬ is_qualifying s → round_map !! s = Some code →
     map_round_description (VStr s) = Ok code) ∧
  (∀ s, s ≠ "" → ¬ is_qualifying s → round_map !! s = None →
     map_round_description (VStr s)
     = Raise (ValueError ("Unknown round description: " +:+ s))) ∧
  map_round_description (VStr "Quarterfinal") = Ok "QF" ∧
  map_round_description (VStr "1/8") = Ok "R8" ∧
  map_round_description (VStr "anything containing QUALIFYING") = Ok "Q" ∧
  map_round_description (VStr "Unknown Stage Name")
  = Raise (ValueError "Unknown round description: Unknown Stage Name").
Proof.
  split_and!; try by vm_compute.
  - intros s Hs Hq. rewrite map_round_description_text by done.
    apply re_search_qualifying in Hq. by rewrite Hq.
  - intros s code Hs Hq Hm. rewrite map_round_description_text by done.
    destruct (re_search_ignorecase _ s) eqn:E.
    + by apply re_search_qualifying in E.
    + by rewrite Hm.
  - intros s Hs Hq Hm. rewrite map_round_description_text by done.
    destruct (re_search_ignorecase _ s) eqn:E.
    + by apply re_search_qualifying in E.
    + by rewrite Hm.
Qed.

Lemma map_round_description_classifies_witness :
  map_round_description (VStr "Qualifying draw") = Ok "Q" ∧
  map_round_description (VStr "Semifinal") = Ok "SF" ∧
  map_round_description (VStr "Round robin")
  = Raise (ValueError "Unknown round description: Round robin").
Proof.
  destruct map_round_description_classifies as (_ & _ & Hq & Ht & Hu & _).
  split_and!.
  - apply Hq; [done|]. apply re_search_qualifying. vm_compute. reflexivity.
  - apply Ht; [done | | vm_compute; reflexivity].
    rewrite <- re_search_qualifying. vm_compute. discriminate.
  - apply (Hu "Round robin"); [done | | vm_compute; reflexivity].
    rewrite <- re_search_qualifying. vm_compute. discriminate.
Defined.

(** ** Match extraction, block by block *)

Section ExtractBlock.

Variables round_description tournament unique : value.

Lemma app_colon_nonempty (h t : string) : h +:+ String ":" t ≠ "".
Proof. by destruct h. Qed.

Lemma validate_text (s : string) :
  s ≠ "" → validate_score_format (VStr s) = Ok (re_match_score s).
Proof. intros H. unfold validate_score_format. by rewrite truthy_str. Qed.

(** A block that is not skipped: the rewrite, the validation of what
    the rewrite left, and the emission, in that order. *)
Lemma extract_block_unskipped (b b1 : Block) (valid : bool) :
  is_skipped (get (b_fields b) "result") = Ok false →
  rewrite_result b = Ok b1 →
  validate_score_format (get (b_fields b1) "result") = Ok valid →
  extract_block round_description tournament unique b
  = (b1,
     if valid then []
     else [LogError ("Invalid score format: "
                       +:+ py_str (get (b_fields b1) "result"))],
     emit_block round_description tournament unique b1).
Proof. intros H1 H2 H3. unfold extract_block. by rewrite H1, H2, H3. Qed.

Lemma is_skipped_text (s : string) :
  s ≠ "" →
  is_skipped (VStr s) = Ok (bool_decide (PyStr.lower s ∈ skip_results)).
Proof. intros H. unfold is_skipped. by rewrite truthy_str. Qed.

Lemma lower_nonempty (s : string) : PyStr.lower s ≠ "" → s ≠ "".
Proof. by intros H ->. Qed.

Lemma sentinel_not_skipped (s : string) :
  PyStr.lower s ∈ sentinel_results → is_skipped (VStr s) = Ok false.
Proof.
  intros H. rewrite is_skipped_text.
  - f_equal. apply bool_decide_eq_false. intros Hs.
    unfold sentinel_results, skip_results in *.
    set_unfold. destruct_or!; try done; congruence.
  - apply lower_nonempty. intros E. rewrite E in H.
    unfold sentinel_results in H. set_unfold. destruct_or!; done.
Qed.

Lemma lower_sentinel (s : string) :
  s ∈ sentinel_results → PyStr.lower s ∈ sentinel_results.
Proof.
  unfold sentinel_results. set_unfold.
  intros [-> | [-> | [-> | []]]]; vm_compute; tauto.
Qed.

Lemma get_insert_eq (d : gmap string value) (k : string) (v : value) :
  get (<[k := v]> d) k = v.
Proof. unfold get. by rewrite lookup_insert_eq. Qed.

Lemma get_insert_ne (d : gmap string value) (k k' : string) (v : value) :
  k ≠ k' → get (<[k := v]> d) k' = get d k'.
Proof. intros H. unfold get. by rewrite lookup_insert_ne. Qed.

(** Whatever is emitted for a block carries the block's [result]. *)
Lemma emit_block_result (b : Block) (g : gmap string value) :
  emit_block round_description tournament unique b = Ok (Some g) →
  get g "result" = get (b_fields b) "result".
Proof.
  unfold emit_block. destruct (default [] (participants b)) as [|p0 rest]; [done|].
  destruct (team_id p0) as [h|]; [|done]. simpl.
  destruct (match rest with [] => Ok VNone | p1 :: _ => team_id p1 end) as [a|];
    [|done]. simpl.
  destruct (map_round_description round_description) as [code|]; [|done]. simpl.
  intros [= <-]. by rewrite !get_insert_ne.
Qed.

Lemma rewrite_result_sentinel (b : Block) (s h a : string) :
  get (b_fields b) "result" = VStr s → s ∈ sentinel_results →
  b_fields b !! "homeTeamScore" = Some (VStr h) →
  b_fields b !! "awayTeamScore" = Some (VStr a) →
  rewrite_result b
  = Ok {| b_fields := <["result" := VStr (h +:+ ":" +:+ a)]> (b_fields b);
          participants := participants b |}.
Proof.
  intros Hr Hs Hh Ha. unfold rewrite_result, score_string, getitem.
  rewrite Hr. unfold is_sentinel. rewrite bool_decide_eq_true_2 by done.
  rewrite Hh. simpl. rewrite Ha. simpl. by rewrite app_assoc.
Qed.

Lemma rewrite_result_other (b : Block) :
  is_sentinel (get (b_fields b) "result") = false → rewrite_result b = Ok b.
Proof. intros H. unfold rewrite_result. by rewrite H. Qed.

End ExtractBlock.

Lemma in_0_3_lower (a : ascii) : in_0_3 a = true → PyStr.lower_char a = a.
Proof.
  unfold in_0_3, PyStr.lower_char, PyStr.is_upper.
  intros [_ H]%andb_true_iff. apply Nat.leb_le in H.
  destruct (65 <=? nat_of_ascii a)%nat eqn:E; [|done].
  apply Nat.leb_le in E. lia.
Qed.

(** Lower-casing leaves a well-formed score as it is. *)
Lemma re_match_score_lower (s : string) :
  re_match_score s = true → re_match_score (PyStr.lower s) = true.
Proof.
  destruct s as [|a [|c [|b rest]]]; try done.
  unfold re_match_score. cbn [PyStr.lower].
  rewrite !andb_true_iff, orb_true_iff.
  intros [[[Ha Hc] Hb] Hr].
  rewrite (in_0_3_lower a), (in_0_3_lower b) by done.
  apply Ascii.eqb_eq in Hc as ->.
  destruct Hr as [->%String.eqb_eq | ->%String.eqb_eq]; by rewrite Ha, Hb.
Qed.

Lemma case_variant_invalid (s : string) :
  PyStr.lower s ∈ sentinel_results → validate_score_format (VStr s) = Ok false.
Proof.
  intros H. rewrite validate_text.
  - f_equal. destruct (re_match_score s) eqn:E; [|done].
    apply re_match_score_lower in E.
    unfold sentinel_results in H. set_unfold.
    destruct H as [H | [H | [H | []]]]; rewrite H in E; vm_compute in E;
      discriminate E.
  - apply lower_nonempty. intros E. rewrite E in H.
    unfold sentinel_results in H. set_unfold. destruct_or!; done.
Qed.

Lemma result_of_match_record (g : gmap string value) :
  result_ (match_record g) = get g "result".
Proof. reflexivity. Qed.

(** C5 (as the code has it). In match extraction, a block whose result
    is one of "home won", "away won", "on-going" and whose two scores
    are text has its result replaced by its home
    score, a colon and its away score before anything else is done with
    it: the validation and the emitted record see the rewritten result.
    A block with result "home won" and scores "2" and "1" gives a match
    record whose result is "2:1". *)
Theorem sentinel_result_rewritten_to_score :
  (∀ rd tn ut (b : Block) (s h a : string),
     get (b_fields b) "result" = VStr s → s ∈ sentinel_results →
     b_fields b !! "homeTeamScore" = Some (VStr h) →
     b_fields b !! "awayTeamScore" = Some (VStr a) →
     ∃ b1,
       rewrite_result b = Ok b1 ∧
       get (b_fields b1) "result" = VStr (h +:+ ":" +:+ a) ∧
       extract_block rd tn ut b
       = (b1,
          if re_match_score (h +:+ ":" +:+ a) then []
          else [LogError ("Invalid score format: " +:+ h +:+ ":" +:+ a)],
          emit_block rd tn ut b1) ∧
       ∀ g, emit_block rd tn ut b1 = Ok (Some g) →
            result_ (match_record g) = VStr (h +:+ ":" +:+ a)) ∧
  match extract_games_from_cuptree
          [sample_bracket "Final"
             [sample_block (VStr "home won") (VStr "2") (VStr "1")]] with
  | (_, lg, Ok [r]) => lg = [] ∧ result_ r = VStr "2:1"
  | _ => False
  end.
Proof.
  split; [|by vm_compute].
  intros rd tn ut b s h a Hr Hs Hh Ha.
  pose proof (rewrite_result_sentinel b s h a Hr Hs Hh Ha) as Hw.
  set (b1 := {| b_fields := <["result" := VStr (h +:+ ":" +:+ a)]> (b_fields b);
                participants := participants b |}) in *.
  assert (Hb1 : get (b_fields b1) "result" = VStr (h +:+ ":" +:+ a))
    by apply get_insert_eq.
  exists b1. split_and!; [done..| |].
  - rewrite (extract_block_unskipped rd tn ut b b1 (re_match_score (h +:+ ":" +:+ a)));
      [by rewrite Hb1 | | done | ].
    + rewrite Hr. by apply sentinel_not_skipped, lower_sentinel.
    + rewrite Hb1. apply validate_text, app_colon_nonempty.
  - intros g Hg. rewrite result_of_match_record.
    by rewrite (emit_block_result _ _ _ _ _ Hg).
Qed.

Lemma sentinel_result_rewritten_to_score_witness :
  ∃ b1,
    rewrite_result (sample_block (VStr "on-going") (VStr "1") (VStr "1")) = Ok b1 ∧
    get (b_fields b1) "result" = VStr "1:1".
Proof.
  destruct sentinel_result_rewritten_to_score as [H _].
  destruct (H VNone VNone VNone
              (sample_block (VStr "on-going") (VStr "1") (VStr "1"))
              "on-going" "1" "1") as (b1 & H1 & H2 & _).
  - reflexivity.
  - apply (bool_decide_unpack _). vm_compute. exact I.
  - reflexivity.
  - reflexivity.
  - exists b1. split; [exact H1 | exact H2].
Defined.

(** C5, the claim as stated fails: a block with the result "on-going"
    that has no scores yet, or whose scores are numbers, is not
    rewritten; extraction stops with an exception and the block keeps
    its result. *)
Lemma sentinel_without_text_scores_not_rewritten :
  let unscored :=
    {| b_fields := {[ "result" := VStr "on-going" ]};
       participants := Some [sample_participant 11 "Sinner J." 4] |} in
  let numeric := sample_block (VStr "home won") (VInt 2) (VInt 1) in
  extract_block (VStr "Final") VNone VNone unscored
  = (unscored, [], Raise (KeyError "homeTeamScore")) ∧
  extract_block (VStr "Final") VNone VNone numeric
  = (numeric, [], Raise TypeError) ∧
  extract_games_from_cuptree [sample_bracket "Final" [numeric]]
  = ([sample_bracket "Final" [numeric]], [], Raise TypeError).
Proof.
  split_and!; vm_compute; reflexivity.
Qed.



(** C10. The skip test lower-cases the result ("Retired" and
    "WALKOVER" are skipped like "retired" and "walkover"), the rewrite
    test compares it as it is.  A block whose result is "home won",
    "away won" or "on-going" in another casing is therefore neither
    skipped nor rewritten: the document keeps it, the score check logs
    it, and the record emitted for the block has that result
    unchanged. *)
Theorem case_variant_sentinel_not_rewritten :
  (∀ rd tn ut (b : Block) (s : string),
     get (b_fields b) "result" = VStr s → PyStr.lower s ∈ skip_results →
     extract_block rd tn ut b = (b, [], Ok None)) ∧
  (∀ rd tn ut (b : Block) (s : string),
     get (b_fields b) "result" = VStr s →
     PyStr.lower s ∈ sentinel_results → s ∉ sentinel_results →
     rewrite_result b = Ok b ∧
     extract_block rd tn ut b
     = (b, [LogError ("Invalid score format: " +:+ s)], emit_block rd tn ut b) ∧
     ∀ g, emit_block rd tn ut b = Ok (Some g) → result_ (match_record g) = VStr s) ∧
  extract_games_from_cuptree
    [sample_bracket "Final" [sample_block (VStr "Retired") (VStr "1") (VStr "0");
                             sample_block (VStr "WALKOVER") (VStr "0") (VStr "0")]]
  = ([sample_bracket "Final" [sample_block (VStr "Retired") (VStr "1") (VStr "0");
                              sample_block (VStr "WALKOVER") (VStr "0") (VStr "0")]],
     [], Ok []) ∧
  match extract_games_from_cuptree
          [sample_bracket "Final"
             [sample_block (VStr "Home won") (VStr "2") (VStr "1")]] with
  | (doc, lg, Ok [r]) =>
      doc = [sample_bracket "Final"
               [sample_block (VStr "Home won") (VStr "2") (VStr "1")]] ∧
      lg = [LogError "Invalid score format: Home won"] ∧
      result_ r = VStr "Home won"
  | _ => False
  end.
Proof.
  split_and!; [| |by vm_compute..].
  - intros rd tn ut b s Hr Hs. unfold extract_block. rewrite Hr.
    rewrite is_skipped_text, bool_decide_eq_true_2; [done..|].
    apply lower_nonempty. intros E. rewrite E in Hs.
    unfold skip_results in Hs. set_unfold. destruct_or!; done.
  - intros rd tn ut b s Hr Hl Hs.
    assert (Hw : rewrite_result b = Ok b).
    { apply rewrite_result_other. rewrite Hr. by apply bool_decide_eq_false. }
    split; [done|]. split.
    + rewrite (extract_block_unskipped rd tn ut b b false); [by rewrite Hr | | done |].
      * rewrite Hr. by apply sentinel_not_skipped.
      * rewrite Hr. by apply case_variant_invalid.
    + intros g Hg. rewrite result_of_match_record.
      by rewrite (emit_block_result _ _ _ _ _ Hg).
Qed.

Lemma case_variant_sentinel_not_rewritten_witness :
  let b := sample_block (VStr "Away Won") (VStr "0") (VStr "3") in
  rewrite_result b = Ok b ∧
  extract_block (VStr "Final") VNone VNone b
  = (b, [LogError "Invalid score format: Away Won"],
     emit_block (VStr "Final") VNone VNone b).
Proof.
  destruct case_variant_sentinel_not_rewritten as (_ & H & _).
  destruct (H (VStr "Final") VNone VNone
              (sample_block (VStr "Away Won") (VStr "0") (VStr "3")) "Away Won")
    as (H1 & H2 & _).
  - reflexivity.
  - apply (bool_decide_unpack _). vm_compute. exact I.
  - apply (bool_decide_unpack _). vm_compute. exact I.
  - split; [exact H1 | exact H2].
Defined.

(** ** The roster *)

Section DropDuplicates.

Context {A : Type} `{EqDecision A}.

Lemma drop_duplicates_elem (seen l : list A) (x : A) :
  x ∈ drop_duplicates seen l ↔ x ∈ l ∧ x ∉ seen.
Proof.
  revert seen. induction l as [|y l IH]; intros seen; simpl.
  - set_solver.
  - case_bool_decide as Hy.
    + rewrite IH. set_solver.
    + rewrite elem_of_cons, IH. destruct (decide (x = y)); set_solver.
Qed.

Lemma drop_duplicates_NoDup (seen l : list A) : NoDup (drop_duplicates seen l).
Proof.
  revert seen. induction l as [|y l IH]; intros seen; simpl.
  - constructor.
  - case_bool_decide; [apply IH|]. constructor; [|apply IH].
    rewrite drop_duplicates_elem. set_solver.
Qed.

End DropDuplicates.

(** C7 (as the code has it). The roster [process_all_data] returns
    holds every participant record (the nine columns together) at most
    once; hence a team id is in it at most once when the records that
    carry the id agree in the other eight columns, whatever the number
    of brackets that reference the team. *)
Theorem roster_records_distinct
    (max_cuptrees : option nat) (files docs : list (list Bracket))
    (lg : list log_record) (t : Tables) :
  process_all_data max_cuptrees files = (docs, lg, inr t) →
  NoDup (tbl_participants t) ∧
  ((∀ p q, p ∈ tbl_participants t → q ∈ tbl_participants t →
           pr_id p = pr_id q → p = q) →
   NoDup (pr_id <$> tbl_participants t)).
Proof.
  intros H.
  assert (Hn : NoDup (tbl_participants t)).
  { unfold process_all_data in H. destruct files as [|f files]; [done|].
    destruct (process_files _) as [[docs' lg'] [[pl gl]|e]]; [|done].
    injection H as _ _ <-. apply drop_duplicates_NoDup. }
  split; [done|]. intros Hagree.
  induction Hn as [|p l Hp Hn IH]; [constructor|].
  rewrite fmap_cons. constructor.
  - intros (q & Hq & Hin)%list_elem_of_fmap.
    assert (p = q) by (apply Hagree; set_solver). by subst.
  - apply IH. intros ????. apply Hagree; set_solver.
Qed.

(** Two files that give the team with id 11 the rankings 4 and 5. *)
Lemma roster_records_distinct_witness :
  ∃ t,
    (process_all_data None
       [[sample_bracket "Final" [sample_block (VStr "3:1") (VStr "3") (VStr "1")]];
        [sample_bracket "Final"
           [sample_block_with [sample_participant 11 "Sinner J." 5;
                               sample_participant 12 "Medvedev D." 3]
              (VStr "3:0") (VStr "3") (VStr "0")]]]).2 = inr t ∧
    NoDup (tbl_participants t).
Proof.
  destruct (process_all_data None _) as [[docs lg] r] eqn:E.
  assert (∃ t, r = inr t) as [t ->].
  { vm_compute in E. injection E as _ _ <-. eauto. }
  exists t. split; [reflexivity|].
  exact (proj1 (roster_records_distinct _ _ _ _ _ E)).
Defined.

(** C7, the claim as stated fails: the team with id 11 is referenced by
    two brackets with rankings 4 and 5 and is twice in the roster. *)
Lemma roster_repeats_team_id :
  match process_all_data None
          [[sample_bracket "Final" [sample_block (VStr "3:1") (VStr "3") (VStr "1")]];
           [sample_bracket "Final"
              [sample_block_with [sample_participant 11 "Sinner J." 5;
                                  sample_participant 12 "Medvedev D." 3]
                 (VStr "3:0") (VStr "3") (VStr "0")]]] with
  | (_, _, inr t) =>
      pr_id <$> tbl_participants t = [VInt 11; VInt 12; VInt 11] ∧
      pr_ranking <$> tbl_participants t = [VInt 4; VInt 3; VInt 5]
  | _ => False
  end.
Proof. by vm_compute. Qed.

(** ** What flattening leaves of the document *)

Lemma forget_stamp_stamp (p : Participant) (t : gmap string value) :
  forget_stamp (stamp_team p t) = forget_stamp t.
Proof.
  unfold forget_stamp, stamp_team. apply map_eq. intros k.
  destruct (decide (k = "teamSeed")) as [->|]; [by rewrite !lookup_delete_eq|].
  rewrite !(lookup_delete_ne _ "teamSeed") by done.
  destruct (decide (k = "order")) as [->|]; [by rewrite !lookup_delete_eq|].
  rewrite !(lookup_delete_ne _ "order") by done.
  destruct (decide (k = "winner")) as [->|]; [by rewrite !lookup_delete_eq|].
  rewrite !(lookup_delete_ne _ "winner") by done.
  by rewrite !lookup_insert_ne.
Qed.

Lemma visit_participant_forget (p : Participant) :
  forget_stamp_participant (visit_participant p).1 = forget_stamp_participant p.
Proof.
  unfold visit_participant. destruct p as [[t|] attrs]; [|done].
  unfold forget_stamp_participant. simpl. by rewrite forget_stamp_stamp.
Qed.

Lemma visit_participants_forget (ps : list Participant) :
  forget_stamp_participant <$> (visit_participants ps).1
  = forget_stamp_participant <$> ps.
Proof.
  induction ps as [|p ps IH]; [done|]. cbn -[fmap].
  pose proof (visit_participant_forget p) as Hp.
  destruct (visit_participant p) as [p' t].
  destruct (visit_participants ps) as [ps' ts]. cbn [fst] in *.
  rewrite !fmap_cons. by rewrite Hp, IH.
Qed.

Lemma visit_block_forget (b : Block) :
  forget_stamps (visit_block b).1 = forget_stamps b.
Proof.
  unfold visit_block. destruct b as [fields [ps|]]; [|done]. simpl.
  pose proof (visit_participants_forget ps) as Hp.
  destruct (visit_participants ps) as [ps' ts]. simpl in *.
  unfold forget_stamps. simpl. by rewrite Hp.
Qed.

Lemma visit_blocks_forget (bs : list Block) :
  forget_stamps <$> (visit_blocks bs).1 = forget_stamps <$> bs.
Proof.
  induction bs as [|b bs IH]; [done|]. cbn -[fmap].
  pose proof (visit_block_forget b) as Hb.
  destruct (visit_block b) as [b' ts].
  destruct (visit_blocks bs) as [bs' ts']. cbn [fst] in *.
  rewrite !fmap_cons. by rewrite Hb, IH.
Qed.

Lemma visit_round_forget (r : Round) :
  map_round_blocks forget_stamps (visit_round r).1
  = map_round_blocks forget_stamps r.
Proof.
  unfold visit_round. destruct r as [fields [bs|]]; [|done]. simpl.
  pose proof (visit_blocks_forget bs) as Hb.
  destruct (visit_blocks bs) as [bs' ts]. simpl in *.
  unfold map_round_blocks. simpl. by rewrite Hb.
Qed.

Lemma visit_rounds_forget (rs : list Round) :
  map_round_blocks forget_stamps <$> (visit_rounds rs).1
  = map_round_blocks forget_stamps <$> rs.
Proof.
  induction rs as [|r rs IH]; [done|]. cbn -[fmap].
  pose proof (visit_round_forget r) as Hr.
  destruct (visit_round r) as [r' ts].
  destruct (visit_rounds rs) as [rs' ts']. cbn [fst] in *.
  rewrite !fmap_cons. by rewrite Hr, IH.
Qed.

Lemma visit_brackets_forget (cs : list Bracket) :
  map_blocks forget_stamps <$> (visit_brackets cs).1
  = map_blocks forget_stamps <$> cs.
Proof.
  induction cs as [|c cs IH]; [done|]. cbn -[fmap].
  destruct c as [tn ut [rs|]]; [|done]. simpl.
  pose proof (visit_rounds_forget rs) as Hr.
  destruct (visit_rounds rs) as [rs' ts].
  destruct (visit_brackets cs) as [cs' r]. simpl in *.
  f_equal; [|exact IH]. unfold map_blocks. simpl. do 2 f_equal. exact Hr.
Qed.

Lemma get_all_participants_forget (doc : list Bracket) :
  map_blocks forget_stamps <$> (get_all_participants doc).1
  = map_blocks forget_stamps <$> doc.
Proof.
  unfold get_all_participants. destruct (forallb _ doc); [done|].
  pose proof (visit_brackets_forget doc) as H.
  by destruct (visit_brackets doc) as [doc' r].
Qed.

Section ExtractDocument.

Variables round_description tournament unique : value.

Lemma rewrite_result_forget (b b1 : Block) :
  rewrite_result b = Ok b1 → forget_result b1 = forget_result b.
Proof.
  unfold rewrite_result. destruct (is_sentinel _); [|by intros [= ->]].
  destruct (score_string _) as [s|]; [|done]. simpl. intros [= <-].
  unfold forget_result. simpl. by rewrite delete_insert_eq.
Qed.

(** The block the document holds after the loop body: the block itself,
    or what the rewrite made of it. *)
Lemma extract_block_document (b : Block) :
  (extract_block round_description tournament unique b).1.1 = b
  ∨ rewrite_result b
    = Ok (extract_block round_description tournament unique b).1.1.
Proof.
  unfold extract_block.
  destruct (is_skipped _) as [[|]|]; [by left| |by left].
  destruct (rewrite_result b) as [b1|]; [|by left].
  destruct (validate_score_format _); by right.
Qed.

Lemma extract_block_forget (b : Block) :
  forget_result (extract_block round_description tournament unique b).1.1
  = forget_result b.
Proof.
  destruct (extract_block_document b) as [->|H]; [done|].
  by apply rewrite_result_forget.
Qed.

Lemma extract_block_keeps (b : Block) :
  is_sentinel (get (b_fields b) "result") = false →
  (extract_block round_description tournament unique b).1.1 = b.
Proof.
  intros Hs. destruct (extract_block_document b) as [->|H]; [done|].
  rewrite rewrite_result_other in H by done. by injection H.
Qed.

Lemma extract_blocks_forget (bs : list Block) :
  forget_result <$> (extract_blocks round_description tournament unique bs).1.1
  = forget_result <$> bs.
Proof.
  induction bs as [|b bs IH]; [done|]. cbn -[fmap].
  pose proof (extract_block_forget b) as Hb.
  destruct (extract_block _ _ _ b) as [[b' lg] [g|e]]; cbn [fst] in *.
  - destruct (extract_blocks _ _ _ bs) as [[bs' lg'] r]. cbn [fst] in *.
    rewrite ?fmap_cons. by rewrite Hb, IH.
  - rewrite ?fmap_cons. by rewrite Hb.
Qed.

Lemma extract_blocks_keeps (bs : list Block) :
  Forall (λ b, is_sentinel (get (b_fields b) "result") = false) bs →
  (extract_blocks round_description tournament unique bs).1.1 = bs.
Proof.
  induction 1 as [|b bs Hb _ IH]; [done|]. cbn -[fmap].
  apply extract_block_keeps in Hb.
  destruct (extract_block _ _ _ b) as [[b' lg] [g|e]]; cbn [fst] in *.
  - destruct (extract_blocks _ _ _ bs) as [[bs' lg'] r]. cbn [fst] in *.
    rewrite ?fmap_cons. by rewrite Hb, IH.
  - rewrite ?fmap_cons. by rewrite Hb.
Qed.

End ExtractDocument.

Lemma extract_round_forget (tn ut : value) (r : Round) :
  map_round_blocks forget_result (extract_round tn ut r).1.1
  = map_round_blocks forget_result r.
Proof.
  unfold extract_round. destruct r as [fields [bs|]]; [|done]. simpl.
  pose proof (extract_blocks_forget (get fields "description") tn ut bs) as Hb.
  destruct (extract_blocks _ _ _ bs) as [[bs' lg] res]. simpl in *.
  unfold map_round_blocks. simpl. by rewrite Hb.
Qed.

Lemma extract_round_keeps (tn ut : value) (r : Round) :
  Forall (λ b, is_sentinel (get (b_fields b) "result") = false) (round_blocks r) →
  (extract_round tn ut r).1.1 = r.
Proof.
  unfold extract_round, round_blocks. destruct r as [fields [bs|]]; [|done]. simpl.
  intros H.
  pose proof (extract_blocks_keeps (get fields "description") tn ut bs H) as Hb.
  destruct (extract_blocks _ _ _ bs) as [[bs' lg] res]. simpl in *. by rewrite Hb.
Qed.

Lemma extract_rounds_forget (tn ut : value) (rs : list Round) :
  map_round_blocks forget_result <$> (extract_rounds tn ut rs).1.1
  = map_round_blocks forget_result <$> rs.
Proof.
  induction rs as [|r rs IH]; [done|]. cbn -[fmap].
  pose proof (extract_round_forget tn ut r) as Hr.
  destruct (extract_round tn ut r) as [[r' lg] [gs|e]]; cbn [fst] in *.
  - destruct (extract_rounds tn ut rs) as [[rs' lg'] res]. cbn [fst] in *.
    rewrite ?fmap_cons. by rewrite Hr, IH.
  - rewrite ?fmap_cons. by rewrite Hr.
Qed.

Lemma extract_rounds_keeps (tn ut : value) (rs : list Round) :
  Forall (λ b, is_sentinel (get (b_fields b) "result") = false)
    (rs ≫= round_blocks) →
  (extract_rounds tn ut rs).1.1 = rs.
Proof.
  induction rs as [|r rs IH]; [done|]. cbn -[fmap].
  rewrite Forall_app. intros [Hr Hrs].
  apply (extract_round_keeps tn ut) in Hr.
  destruct (extract_round tn ut r) as [[r' lg] [gs|e]]; cbn [fst] in *.
  - specialize (IH Hrs).
    destruct (extract_rounds tn ut rs) as [[rs' lg'] res]. cbn [fst] in *.
    rewrite ?fmap_cons. by rewrite Hr, IH.
  - rewrite ?fmap_cons. by rewrite Hr.
Qed.

Lemma extract_bracket_forget (c : Bracket) :
  map_blocks forget_result (extract_bracket c).1.1 = map_blocks forget_result c.
Proof.
  unfold extract_bracket. destruct c as [tn ut [rs|]]; [|done]. simpl.
  pose proof (extract_rounds_forget tn ut rs) as Hr.
  destruct (extract_rounds tn ut rs) as [[rs' lg] res]. simpl in *.
  unfold map_blocks. simpl. by rewrite Hr.
Qed.

Lemma extract_bracket_keeps (c : Bracket) :
  Forall (λ b, is_sentinel (get (b_fields b) "result") = false) (bracket_blocks c) →
  (extract_bracket c).1.1 = c.
Proof.
  unfold extract_bracket, bracket_blocks. destruct c as [tn ut [rs|]]; [|done].
  simpl. intros H.
  pose proof (extract_rounds_keeps tn ut rs H) as Hr.
  destruct (extract_rounds tn ut rs) as [[rs' lg] res]. simpl in *. by rewrite Hr.
Qed.

Lemma extract_brackets_forget (cs : list Bracket) :
  map_blocks forget_result <$> (extract_brackets cs).1.1
  = map_blocks forget_result <$> cs.
Proof.
  induction cs as [|c cs IH]; [done|]. cbn -[fmap].
  pose proof (extract_bracket_forget c) as Hc.
  destruct (extract_bracket c) as [[c' lg] [gs|e]]; cbn [fst] in *.
  - destruct (extract_brackets cs) as [[cs' lg'] res]. cbn [fst] in *.
    rewrite ?fmap_cons. by rewrite Hc, IH.
  - rewrite ?fmap_cons. by rewrite Hc.
Qed.

Lemma extract_brackets_keeps (cs : list Bracket) :
  Forall (λ c, Forall (λ b, is_sentinel (get (b_fields b) "result") = false)
                 (bracket_blocks c)) cs →
  (extract_brackets cs).1.1 = cs.
Proof.
  induction 1 as [|c cs Hc _ IH]; [done|]. cbn -[fmap].
  apply extract_bracket_keeps in Hc.
  destruct (extract_bracket c) as [[c' lg] [gs|e]]; cbn [fst] in *.
  - destruct (extract_brackets cs) as [[cs' lg'] res]. cbn [fst] in *.
    rewrite ?fmap_cons. by rewrite Hc, IH.
  - rewrite ?fmap_cons. by rewrite Hc.
Qed.

Lemma extract_games_document (cs : list Bracket) :
  (extract_games_from_cuptree cs).1.1 = (extract_brackets cs).1.1.
Proof.
  unfold extract_games_from_cuptree.
  by destruct (extract_brackets cs) as [[cs' lg] res].
Qed.

(** *** The document after roster extraction *)

Lemma visit_participant_stamp (p : Participant) :
  (visit_participant p).1 = stamp_participant p.
Proof.
  unfold visit_participant, stamp_participant. by destruct p as [[t|] attrs].
Qed.

Lemma visit_participants_stamp (ps : list Participant) :
  (visit_participants ps).1 = stamp_participant <$> ps.
Proof.
  induction ps as [|p ps IH]; [done|]. cbn [visit_participants].
  pose proof (visit_participant_stamp p) as Hp.
  destruct (visit_participant p) as [p' t].
  destruct (visit_participants ps) as [ps' ts]. cbn [fst] in *.
  rewrite fmap_cons. by rewrite Hp, IH.
Qed.

Lemma visit_block_stamp (b : Block) : (visit_block b).1 = stamp_block b.
Proof.
  unfold visit_block, stamp_block. destruct b as [fields [ps|]]; [|done].
  cbn [participants b_fields].
  pose proof (visit_participants_stamp ps) as Hp.
  destruct (visit_participants ps) as [ps' ts]. cbn [fst] in *. by rewrite Hp.
Qed.

Lemma visit_blocks_stamp (bs : list Block) :
  (visit_blocks bs).1 = stamp_block <$> bs.
Proof.
  induction bs as [|b bs IH]; [done|]. cbn [visit_blocks].
  pose proof (visit_block_stamp b) as Hb.
  destruct (visit_block b) as [b' ts].
  destruct (visit_blocks bs) as [bs' ts']. cbn [fst] in *.
  rewrite fmap_cons. by rewrite Hb, IH.
Qed.

Lemma visit_round_stamp (r : Round) :
  (visit_round r).1 = map_round_blocks stamp_block r.
Proof.
  unfold visit_round, map_round_blocks. destruct r as [fields [bs|]]; [|done].
  cbn [blocks r_fields].
  pose proof (visit_blocks_stamp bs) as Hb.
  destruct (visit_blocks bs) as [bs' ts]. cbn [fst] in *. by rewrite Hb.
Qed.

Lemma visit_rounds_stamp (rs : list Round) :
  (visit_rounds rs).1 = map_round_blocks stamp_block <$> rs.
Proof.
  induction rs as [|r rs IH]; [done|]. cbn [visit_rounds].
  pose proof (visit_round_stamp r) as Hr.
  destruct (visit_round r) as [r' ts].
  destruct (visit_rounds rs) as [rs' ts']. cbn [fst] in *.
  rewrite fmap_cons. by rewrite Hr, IH.
Qed.

(** The walk stamps the brackets up to the first one whose rounds are
    not a list and leaves that one and those after it as they are. *)
Lemma visit_brackets_stamp (pre rest : list Bracket) :
  Forall (λ c, is_Some (rounds c)) pre →
  match rest with [] => True | c :: _ => rounds c = None end →
  (visit_brackets (pre ++ rest)).1 = (map_blocks stamp_block <$> pre) ++ rest.
Proof.
  intros Hpre Hrest. induction Hpre as [|c pre [rs Hc] _ IH].
  - cbn [app fmap list_fmap]. destruct rest as [|c rest]; [done|].
    cbn [visit_brackets]. by rewrite Hrest.
  - cbn [app visit_brackets]. rewrite Hc.
    pose proof (visit_rounds_stamp rs) as Hr.
    destruct (visit_rounds rs) as [rs' ts].
    destruct (visit_brackets (pre ++ rest)) as [cs' r]. cbn [fst] in *.
    rewrite fmap_cons. cbn [app]. rewrite IH. f_equal.
    unfold map_blocks. rewrite Hc. cbn. by rewrite Hr.
Qed.

Lemma get_all_participants_stamp (pre rest : list Bracket) :
  Forall (λ c, is_Some (rounds c)) pre →
  match rest with [] => True | c :: _ => rounds c = None end →
  (get_all_participants (pre ++ rest)).1
  = (map_blocks stamp_block <$> pre) ++ rest.
Proof.
  intros Hpre Hrest. unfold get_all_participants.
  destruct (forallb _ (pre ++ rest)) eqn:Hall.
  - destruct Hpre as [|c pre [rs Hc] _]; [done|].
    cbn [app forallb] in Hall. rewrite Hc in Hall. done.
  - pose proof (visit_brackets_stamp pre rest Hpre Hrest) as H.
    by destruct (visit_brackets (pre ++ rest)) as [doc' r].
Qed.

(** *** The document after match extraction *)

Lemma overwritten_other (b : Block) :
  is_sentinel (get (b_fields b) "result") = false → overwritten b = b.
Proof.
  unfold overwritten, is_sentinel.
  destruct (get (b_fields b) "result") as [| | |s|]; try done.
  intros ->. destruct (b_fields b !! "homeTeamScore") as [[| | |h|]|]; try done.
  by destruct (b_fields b !! "awayTeamScore") as [[| | |a|]|].
Qed.

Lemma rewrite_result_overwritten (b b1 : Block) :
  rewrite_result b = Ok b1 → b1 = overwritten b.
Proof.
  unfold rewrite_result. destruct (is_sentinel _) eqn:Hs.
  - unfold score_string, getitem, overwritten.
    unfold is_sentinel in Hs.
    destruct (get (b_fields b) "result") as [| | |s|]; try done. rewrite Hs.
    destruct (b_fields b !! "homeTeamScore") as [[| | |h|]|]; try done.
    cbn [mbind result_bind add_str].
    destruct (b_fields b !! "awayTeamScore") as [[| | |a|]|]; try done.
    cbn [mbind result_bind add_str]. intros [= <-]. by rewrite app_assoc.
  - intros [= <-]. by rewrite overwritten_other.
Qed.

Lemma skipped_not_sentinel (r : value) :
  is_skipped r = Ok true → is_sentinel r = false.
Proof.
  intros Hk. destruct (is_sentinel r) eqn:Hs; [|done].
  unfold is_sentinel in Hs. destruct r as [| | |s|]; try done.
  apply bool_decide_eq_true in Hs.
  by rewrite (sentinel_not_skipped s) in Hk by (by apply lower_sentinel).
Qed.

Section Overwritten.

Variables rd tn ut : value.

Lemma extract_block_loaded_or_overwritten (b : Block) :
  loaded_or_overwritten b (extract_block rd tn ut b).1.1.
Proof.
  destruct (extract_block_document rd tn ut b) as [H|H]; [by left|].
  right. by apply rewrite_result_overwritten.
Qed.

(** A block that the loop body got through without an exception. *)
Lemma extract_block_done (b : Block) (g : option (gmap string value)) :
  (extract_block rd tn ut b).2 = Ok g →
  (extract_block rd tn ut b).1.1 = overwritten b.
Proof.
  unfold extract_block.
  destruct (is_skipped _) as [[|]|] eqn:Hk; [| |done].
  - intros _. cbn [fst]. symmetry. by apply overwritten_other, skipped_not_sentinel.
  - destruct (rewrite_result b) as [b1|] eqn:Hw; [|done].
    destruct (validate_score_format _); [|done].
    intros _. cbn [fst]. by apply rewrite_result_overwritten.
Qed.

Lemma extract_blocks_loaded_or_overwritten (bs : list Block) :
  Forall2 loaded_or_overwritten bs (extract_blocks rd tn ut bs).1.1.
Proof.
  induction bs as [|b bs IH]; [constructor|]. cbn [extract_blocks].
  pose proof (extract_block_loaded_or_overwritten b) as Hb.
  destruct (extract_block rd tn ut b) as [[b' lg] [g|e]]; cbn [fst] in *.
  - destruct (extract_blocks rd tn ut bs) as [[bs' lg'] r]. by constructor.
  - constructor; [done|]. apply Forall2_same_length_lookup_2; [done|].
    intros i x y Hx Hy. left. congruence.
Qed.

Lemma extract_blocks_done (bs : list Block) (gs : list (gmap string value)) :
  (extract_blocks rd tn ut bs).2 = Ok gs →
  (extract_blocks rd tn ut bs).1.1 = overwritten <$> bs.
Proof.
  revert gs. induction bs as [|b bs IH]; intros gs; [done|].
  cbn [extract_blocks].
  pose proof (extract_block_done b) as Hb.
  destruct (extract_block rd tn ut b) as [[b' lg] [g|e]]; [|done].
  cbn [fst snd] in Hb. specialize (Hb g eq_refl).
  destruct (extract_blocks rd tn ut bs) as [[bs' lg'] [gs'|e]]; [|done].
  cbn [fst snd] in *. intros _. rewrite fmap_cons. by rewrite Hb, (IH gs').
Qed.

End Overwritten.

Lemma rel_round_refl (R : Block → Block → Prop) (r : Round) :
  (∀ b, R b b) → rel_round R r r.
Proof.
  intros HR. split; [done|]. destruct (blocks r) as [bs|]; [|done].
  induction bs; by constructor.
Qed.

Lemma rel_bracket_refl (R : Block → Block → Prop) (c : Bracket) :
  (∀ b, R b b) → rel_bracket R c c.
Proof.
  intros HR. split_and!; [done..|]. destruct (rounds c) as [rs|]; [|done].
  induction rs; constructor; [by apply rel_round_refl | done].
Qed.

Lemma loaded_or_overwritten_refl (b : Block) : loaded_or_overwritten b b.
Proof. by left. Qed.

Lemma extract_round_loaded_or_overwritten (tn ut : value) (r : Round) :
  rel_round loaded_or_overwritten r (extract_round tn ut r).1.1.
Proof.
  unfold extract_round. destruct (blocks r) as [bs|] eqn:Hb.
  - pose proof (extract_blocks_loaded_or_overwritten
                  (get (r_fields r) "description") tn ut bs) as H.
    destruct (extract_blocks _ tn ut bs) as [[bs' lg] res].
    split; [done|]. cbn [fst blocks]. by rewrite Hb.
  - apply rel_round_refl, loaded_or_overwritten_refl.
Qed.

Lemma extract_round_done (tn ut : value) (r : Round)
    (gs : list (gmap string value)) :
  (extract_round tn ut r).2 = Ok gs →
  (extract_round tn ut r).1.1 = map_round_blocks overwritten r.
Proof.
  unfold extract_round, map_round_blocks. destruct r as [fields [bs|]]; [|done].
  cbn [blocks r_fields].
  pose proof (extract_blocks_done (get fields "description") tn ut bs) as H.
  destruct (extract_blocks _ tn ut bs) as [[bs' lg] res].
  cbn [fst snd] in *. intros ->. by rewrite (H gs).
Qed.

Lemma extract_rounds_loaded_or_overwritten (tn ut : value) (rs : list Round) :
  Forall2 (rel_round loaded_or_overwritten) rs (extract_rounds tn ut rs).1.1.
Proof.
  induction rs as [|r rs IH]; [constructor|]. cbn [extract_rounds].
  pose proof (extract_round_loaded_or_overwritten tn ut r) as Hr.
  destruct (extract_round tn ut r) as [[r' lg] [gs|e]]; cbn [fst] in *.
  - destruct (extract_rounds tn ut rs) as [[rs' lg'] res]. by constructor.
  - constructor; [done|]. apply Forall2_same_length_lookup_2; [done|].
    intros i x y Hx Hy. assert (x = y) as -> by congruence.
    apply rel_round_refl, loaded_or_overwritten_refl.
Qed.

Lemma extract_rounds_done (tn ut : value) (rs : list Round)
    (gs : list (gmap string value)) :
  (extract_rounds tn ut rs).2 = Ok gs →
  (extract_rounds tn ut rs).1.1 = map_round_blocks overwritten <$> rs.
Proof.
  revert gs. induction rs as [|r rs IH]; intros gs; [done|].
  cbn [extract_rounds].
  pose proof (extract_round_done tn ut r) as Hr.
  destruct (extract_round tn ut r) as [[r' lg] [gs1|e]]; [|done].
  cbn [fst snd] in Hr. specialize (Hr gs1 eq_refl).
  destruct (extract_rounds tn ut rs) as [[rs' lg'] [gs2|e]]; [|done].
  cbn [fst snd] in *. intros _. rewrite fmap_cons. by rewrite Hr, (IH gs2).
Qed.

Lemma extract_bracket_loaded_or_overwritten (c : Bracket) :
  rel_bracket loaded_or_overwritten c (extract_bracket c).1.1.
Proof.
  unfold extract_bracket. destruct (rounds c) as [rs|] eqn:Hr.
  - pose proof (extract_rounds_loaded_or_overwritten
                  (tournamentName c) (uniqueTournamentName c) rs) as H.
    destruct (extract_rounds _ _ rs) as [[rs' lg] res].
    split_and!; [done..|]. cbn [fst rounds]. by rewrite Hr.
  - apply rel_bracket_refl, loaded_or_overwritten_refl.
Qed.

Lemma extract_bracket_done (c : Bracket) (gs : list (gmap string value)) :
  (extract_bracket c).2 = Ok gs →
  (extract_bracket c).1.1 = map_blocks overwritten c.
Proof.
  unfold extract_bracket, map_blocks. destruct c as [tn ut [rs|]]; [|done].
  cbn [rounds tournamentName uniqueTournamentName].
  pose proof (extract_rounds_done tn ut rs) as H.
  destruct (extract_rounds tn ut rs) as [[rs' lg] res].
  cbn [fst snd] in *. intros ->. by rewrite (H gs).
Qed.

Lemma extract_brackets_loaded_or_overwritten (cs : list Bracket) :
  Forall2 (rel_bracket loaded_or_overwritten) cs (extract_brackets cs).1.1.
Proof.
  induction cs as [|c cs IH]; [constructor|]. cbn [extract_brackets].
  pose proof (extract_bracket_loaded_or_overwritten c) as Hc.
  destruct (extract_bracket c) as [[c' lg] [gs|e]]; cbn [fst] in *.
  - destruct (extract_brackets cs) as [[cs' lg'] res]. by constructor.
  - constructor; [done|]. apply Forall2_same_length_lookup_2; [done|].
    intros i x y Hx Hy. assert (x = y) as -> by congruence.
    apply rel_bracket_refl, loaded_or_overwritten_refl.
Qed.

Lemma extract_brackets_done (cs : list Bracket) (gs : list (gmap string value)) :
  (extract_brackets cs).2 = Ok gs →
  (extract_brackets cs).1.1 = map_blocks overwritten <$> cs.
Proof.
  revert gs. induction cs as [|c cs IH]; intros gs; [done|].
  cbn [extract_brackets].
  pose proof (extract_bracket_done c) as Hc.
  destruct (extract_bracket c) as [[c' lg] [gs1|e]]; [|done].
  cbn [fst snd] in Hc. specialize (Hc gs1 eq_refl).
  destruct (extract_brackets cs) as [[cs' lg'] [gs2|e]]; [|done].
  cbn [fst snd] in *. intros _. rewrite fmap_cons. by rewrite Hc, (IH gs2).
Qed.

(** C8 (as the code has it). Flattening changes the loaded document in
    two places and nowhere else.

    Roster extraction writes the entries [winner], [order] and
    [teamSeed] of each participant into the participant's team
    dictionary, for every participant of every bracket it walks: all
    brackets when every rounds cell is a list, the brackets before the
    first cell that is not a list otherwise.  The document it leaves is
    exactly the loaded one with these teams stamped.

    Match extraction overwrites the [result] of a block with
    "<homeTeamScore>:<awayTeamScore>" when the result is "home won",
    "away won" or "on-going" and both scores are text.  When its walk
    ends without an exception the document it leaves is exactly the
    loaded one with every such block overwritten; when the walk stops
    at an exception every block is either as loaded or so overwritten.
    In both cases everything but the [result] entries of the blocks is
    as loaded, and a document without such blocks is unchanged. *)
Theorem flattening_changes_stamps_and_results_only :
  (∀ doc : list Bracket,
     map_blocks forget_stamps <$> (get_all_participants doc).1
     = map_blocks forget_stamps <$> doc) ∧
  (∀ doc : list Bracket,
     map_blocks forget_result <$> (extract_games_from_cuptree doc).1.1
     = map_blocks forget_result <$> doc) ∧
  (∀ doc : list Bracket,
     (∀ c b, c ∈ doc → b ∈ bracket_blocks c →
             is_sentinel (get (b_fields b) "result") = false) →
     (extract_games_from_cuptree doc).1.1 = doc) ∧
  (∀ (p : Participant) (t : gmap string value),
     team p = Some t →
     team (visit_participant p).1
     = Some (<["teamSeed" := get (p_attrs p) "teamSeed"]>
               (<["order" := get (p_attrs p) "order"]>
                  (<["winner" := get (p_attrs p) "winner"]> t)))) ∧
  (∀ doc : list Bracket,
     Forall (λ c, is_Some (rounds c)) doc →
     (get_all_participants doc).1 = map_blocks stamp_block <$> doc) ∧
  (∀ (pre post : list Bracket) (c : Bracket),
     Forall (λ c, is_Some (rounds c)) pre → rounds c = None →
     (get_all_participants (pre ++ c :: post)).1
     = (map_blocks stamp_block <$> pre) ++ c :: post) ∧
  (∀ (doc : list Bracket) (gs : list (gmap string value)),
     (extract_brackets doc).2 = Ok gs →
     (extract_games_from_cuptree doc).1.1 = map_blocks overwritten <$> doc) ∧
  (∀ (doc : list Bracket) (games : list MatchRecord),
     (extract_games_from_cuptree doc).2 = Ok games →
     (extract_games_from_cuptree doc).1.1 = map_blocks overwritten <$> doc) ∧
  (∀ doc : list Bracket,
     Forall2 (rel_bracket loaded_or_overwritten) doc
       (extract_games_from_cuptree doc).1.1) ∧
  (∀ (b : Block) (s h a : string),
     get (b_fields b) "result" = VStr s → s ∈ sentinel_results →
     b_fields b !! "homeTeamScore" = Some (VStr h) →
     b_fields b !! "awayTeamScore" = Some (VStr a) →
     overwritten b
     = {| b_fields := <["result" := VStr (h +:+ ":" +:+ a)]> (b_fields b);
          participants := participants b |}) ∧
  (∀ b : Block,
     is_sentinel (get (b_fields b) "result") = false → overwritten b = b).
Proof.
  split_and!.
  - apply get_all_participants_forget.
  - intros doc. rewrite extract_games_document. apply extract_brackets_forget.
  - intros doc H. rewrite extract_games_document. apply extract_brackets_keeps.
    apply Forall_forall. intros c Hc. apply Forall_forall. intros b Hb.
    by apply (H c b).
  - intros p t H. unfold visit_participant. by rewrite H.
  - intros doc Hdoc.
    pose proof (get_all_participants_stamp doc [] Hdoc I) as H.
    by rewrite !List.app_nil_r in H.
  - intros pre post c Hpre Hc.
    by apply (get_all_participants_stamp pre (c :: post)).
  - intros doc gs Hgs. rewrite extract_games_document.
    by apply (extract_brackets_done doc gs).
  - intros doc games Hg. rewrite extract_games_document.
    unfold extract_games_from_cuptree in Hg.
    pose proof (extract_brackets_done doc) as H.
    destruct (extract_brackets doc) as [[cs lg] [gs|e]]; [|done].
    by apply (H gs).
  - intros doc. rewrite extract_games_document.
    apply extract_brackets_loaded_or_overwritten.
  - intros b s h a Hr Hs Hh Ha. unfold overwritten.
    by rewrite Hr, Hh, Ha, bool_decide_eq_true_2.
  - apply overwritten_other.
Qed.

Lemma flattening_changes_stamps_and_results_only_witness :
  let doc := [sample_bracket "Final"
                [sample_block (VStr "3:1") (VStr "3") (VStr "1")]] in
  (extract_games_from_cuptree doc).1.1 = doc ∧
  (get_all_participants doc).1 = map_blocks stamp_block <$> doc.
Proof.
  destruct flattening_changes_stamps_and_results_only
    as (_ & _ & H & _ & Hs & _).
  split.
  - apply H. intros c b Hc Hb.
    apply list_elem_of_singleton in Hc as ->.
    apply list_elem_of_singleton in Hb as ->.
    reflexivity.
  - apply Hs. apply (bool_decide_unpack _). vm_compute. exact I.
Defined.

(** C8, the claim as stated fails: after roster extraction the teams of
    the document carry the three stamped entries, and after match
    extraction the block that had the result "home won" has the result
    "2:1". *)
Lemma flattening_mutates_document :
  let doc := [sample_bracket "Final"
                [sample_block (VStr "home won") (VStr "2") (VStr "1")]] in
  (get_all_participants doc).1 ≠ doc ∧
  (extract_games_from_cuptree doc).1.1 ≠ doc ∧
  (extract_games_from_cuptree doc).1.1
  = [sample_bracket "Final" [sample_block (VStr "2:1") (VStr "2") (VStr "1")]].
Proof.
  split_and!.
  - apply (bool_decide_unpack _). vm_compute. exact I.
  - apply (bool_decide_unpack _). vm_compute. exact I.
  - apply (bool_decide_unpack _). vm_compute. exact I.
Qed.

(** ** Synthetic birthdates *)

Lemma birth_low_value : birth_low = 0.
Proof. reflexivity. Qed.

Lemma birth_high_value : birth_high = 13148 * seconds_per_day.
Proof. reflexivity. Qed.

Lemma window_days :
  days_from_civil 1970 1 1 = 0 ∧ days_from_civil 2005 12 30 = 13147 ∧
  days_from_civil 2005 12 31 = 13148.
Proof. by vm_compute. Qed.

Lemma normalize_day (t : Z) : normalize t = t / seconds_per_day * seconds_per_day.
Proof.
  unfold normalize, seconds_per_day.
  pose proof (Z.div_mod t 86400). lia.
Qed.

(** The draws that are normalized to a given midnight are those of that
    day. *)
Lemma normalize_iff (day t : Z) :
  normalize t = day * seconds_per_day
  ↔ day * seconds_per_day ≤ t < (day + 1) * seconds_per_day.
Proof.
  rewrite normalize_day. unfold seconds_per_day.
  pose proof (Z.div_mod t 86400). pose proof (Z.mod_pos_bound t 86400).
  split; [intros H1 | intros H1; assert (t / 86400 = day) by nia]; nia.
Qed.

Lemma random_birthdates_length (G : Generator) (n : nat) :
  length (random_birthdates G n) = n.
Proof. unfold random_birthdates. by rewrite length_fmap, randint_length. Qed.

Lemma random_birthdates_range (G : Generator) (n : nat) (d : Z) :
  d ∈ random_birthdates G n →
  ∃ day, d = day * seconds_per_day ∧ 0 ≤ day ≤ 13147.
Proof.
  unfold random_birthdates. intros (t & -> & Ht)%list_elem_of_fmap.
  apply randint_range in Ht; [|done].
  rewrite birth_low_value, birth_high_value in Ht. unfold seconds_per_day in Ht.
  exists (t / seconds_per_day). split; [apply normalize_day|].
  unfold seconds_per_day.
  pose proof (Z.div_mod t 86400). pose proof (Z.mod_pos_bound t 86400). nia.
Qed.

(** C9 (as the code has it). Every participant of the roster receives a
    birthdate; it is the midnight of a day from 1970-01-01 to
    2005-12-30, both included: the upper bound 2005-12-31 of the draw is
    excluded.  Each day of that window is the birthdate for the same
    number of values of the draw, the 86400 seconds of the day, all of
    them within the range drawn from.  The seed is fixed, so the
    birthdates are a function of the number of participants alone: two
    runs over rosters of the same size give the same birthdates. *)
Theorem birthdates_window_and_repeatable
    (G : Generator) (participants : list ParticipantRecord) :
  (participant_features G participants).*1 = participants ∧
  (∀ p d, (p, d) ∈ participant_features G participants →
     ∃ day, d = day * seconds_per_day ∧
            days_from_civil 1970 1 1 ≤ day ≤ days_from_civil 2005 12 30) ∧
  (∀ day t, days_from_civil 1970 1 1 ≤ day ≤ days_from_civil 2005 12 30 →
     (birth_low ≤ t < birth_high ∧ normalize t = day * seconds_per_day)
     ↔ day * seconds_per_day ≤ t < (day + 1) * seconds_per_day) ∧
  (∀ others : list ParticipantRecord,
     length others = length participants →
     (participant_features G others).*2 = (participant_features G participants).*2).
Proof.
  destruct window_days as (E0 & E1 & _). rewrite E0, E1.
  unfold participant_features. split_and!.
  - apply fst_zip. by rewrite random_birthdates_length.
  - intros p d Hin. apply elem_of_zip_r in Hin.
    by apply random_birthdates_range in Hin.
  - intros day t Hday. rewrite normalize_iff, birth_low_value, birth_high_value.
    unfold seconds_per_day. split; [tauto|]. intros H. split; [nia|done].
  - intros others Hlen.
    rewrite !snd_zip by (by rewrite random_birthdates_length; lia).
    by rewrite Hlen.
Qed.

Lemma birthdates_window_and_repeatable_witness :
  (participant_features sample_generator
     [project_participant ∅; project_participant {[ "id" := VInt 11 ]}]).*2
  = (participant_features sample_generator
       [project_participant {[ "id" := VInt 12 ]}; project_participant ∅]).*2.
Proof.
  destruct (birthdates_window_and_repeatable sample_generator
              [project_participant {[ "id" := VInt 12 ]}; project_participant ∅])
    as (_ & _ & _ & H).
  apply H. reflexivity.
Defined.

(** C9, the claim as stated fails: no draw gives the birthdate
    2005-12-31, so the upper bound is not included. *)
Lemma birthdate_never_upper_bound :
  ¬ ∃ (G : Generator) (participants : list ParticipantRecord)
      (p : ParticipantRecord),
      (p, days_from_civil 2005 12 31 * seconds_per_day)
      ∈ participant_features G participants.
Proof.
  intros (G & participants & p & Hin).
  unfold participant_features in Hin. apply elem_of_zip_r in Hin.
  apply random_birthdates_range in Hin as (day & Hd & Hr).
  destruct window_days as (_ & _ & E). rewrite E in Hd.
  unfold seconds_per_day in Hd. lia.
Qed.

(** ** Splitting a score at the colon *)

Lemma contains_colon_cons (c : ascii) (s : string) :
  PyStr.contains ":" (String c s) = Ascii.eqb ":" c || PyStr.contains ":" s.
Proof.
  cbn [PyStr.contains PyStr.startswith]. by destruct (Ascii.eqb ":" c).
Qed.

Lemma split_nonempty (sep : ascii) (s : string) : PyStr.split sep s ≠ [].
Proof.
  induction s as [|c s IH]; [done|]. simpl.
  destruct (Ascii.eqb c sep); [done|]. by destruct (PyStr.split sep s).
Qed.

Lemma split_colon_free (s : string) :
  PyStr.contains ":" s = false → PyStr.split ":" s = [s].
Proof.
  induction s as [|c s IH]; [done|].
  rewrite contains_colon_cons, orb_false_iff. intros [Hc Hs].
  cbn [PyStr.split]. rewrite Ascii.eqb_sym, Hc. by rewrite IH.
Qed.

Lemma split_app_colon (h t : string) :
  PyStr.contains ":" h = false →
  PyStr.split ":" (h +:+ String ":" t) = h :: PyStr.split ":" t.
Proof.
  induction h as [|c h IH].
  - intros _. rewrite app_nil_l. cbn [PyStr.split]. by rewrite Ascii.eqb_refl.
  - rewrite contains_colon_cons, orb_false_iff. intros [Hc Hh].
    rewrite app_cons. cbn [PyStr.split]. rewrite Ascii.eqb_sym, Hc. by rewrite IH.
Qed.

(** A text with a colon splits into a first part, a second part and
    possibly more; the first two parts have no colon. *)
Lemma split_two_parts (s : string) :
  PyStr.contains ":" s = true →
  ∃ p0 p1 rest,
    PyStr.split ":" s = p0 :: p1 :: rest ∧
    PyStr.contains ":" p0 = false ∧ PyStr.contains ":" p1 = false.
Proof.
  induction s as [|c s IH]; [done|].
  rewrite contains_colon_cons. cbn [PyStr.split]. rewrite (Ascii.eqb_sym c ":").
  destruct (Ascii.eqb ":" c) eqn:Hc; cbn [orb].
  - intros _. clear IH.
    assert (∃ p1 rest, PyStr.split ":" s = p1 :: rest
                       ∧ PyStr.contains ":" p1 = false) as (p1 & rest & -> & H1).
    { clear. induction s as [|d s IH]; [by exists "", []|].
      cbn [PyStr.split]. rewrite (Ascii.eqb_sym d ":").
      destruct (Ascii.eqb ":" d) eqn:Hd; [by exists "", (PyStr.split ":" s)|].
      destruct IH as (p1 & rest & -> & H1). exists (String d p1), rest.
      split; [done|]. by rewrite contains_colon_cons, Hd, H1. }
    by exists "", p1, rest.
  - intros Hs. destruct (IH Hs) as (p0 & p1 & rest & -> & H0 & H1).
    exists (String c p0), p1, rest. split_and!; [done| |done].
    by rewrite contains_colon_cons, Hc, H0.
Qed.

Lemma contains_colon_app (h t : string) :
  PyStr.contains ":" (h +:+ String ":" t) = true.
Proof.
  apply contains_spec. exists h, t. done.
Qed.

(** [reverse_result] on a text with a colon: the second part, a colon,
    the first part. *)
Lemma reverse_result_parts (s p0 p1 : string) (rest : list string) :
  PyStr.contains ":" s = true → PyStr.split ":" s = p0 :: p1 :: rest →
  reverse_result (VStr s) = VStr (p1 +:+ ":" +:+ p0).
Proof. intros Hc Hs. unfold reverse_result. by rewrite Hc, Hs. Qed.

Lemma reverse_result_score (h a : string) :
  PyStr.contains ":" h = false → PyStr.contains ":" a = false →
  reverse_result (VStr (h +:+ ":" +:+ a)) = VStr (a +:+ ":" +:+ h).
Proof.
  intros Hh Ha. apply (reverse_result_parts _ h a []).
  - exact (contains_colon_app h a).
  - change (":" +:+ a) with (String ":" a).
    by rewrite split_app_colon, split_colon_free.
Qed.

(** ** Labels *)

Lemma define_label_parts (r : value) (l : string) :
  (define_label r).2 = Ok l
  ↔ ∃ h a, score_parts r = Some (h, a) ∧ l = if h >? a then "home" else "away".
Proof.
  unfold define_label, score_parts. destruct r as [| | |s|].
  1-3,5: split; [done | by intros (? & ? & ? & _)].
  destruct (PyStr.contains ":" s) eqn:Hc.
  - destruct (split_two_parts s Hc) as (p0 & p1 & rest & -> & _).
    destruct (PyStr.int p0) as [h|]; simpl; [|split; [done | by intros (? & ? & ? & _)]].
    destruct (PyStr.int p1) as [a|]; simpl; [|split; [done | by intros (? & ? & ? & _)]].
    split.
    + intros [= <-]. by exists h, a.
    + intros (h' & a' & [= <- <-] & ->). done.
  - rewrite split_colon_free by done. simpl.
    split; [done | by intros (? & ? & ? & _)].
Qed.

Lemma score_parts_reverse (r : value) (h a : Z) :
  score_parts r = Some (h, a) → score_parts (reverse_result r) = Some (a, h).
Proof.
  destruct r as [| | |s|]; try done. intros H.
  destruct (PyStr.contains ":" s) eqn:Hc.
  - destruct (split_two_parts s Hc) as (p0 & p1 & rest & Hs & H0 & H1).
    rewrite (reverse_result_parts s p0 p1 rest) by done.
    unfold score_parts in *. rewrite Hs in H.
    change (":" +:+ p0) with (String ":" p0).
    rewrite split_app_colon, split_colon_free by done.
    destruct (PyStr.int p0) as [h'|]; [|done].
    destruct (PyStr.int p1) as [a'|]; [|done].
    simpl in *. by injection H as -> ->.
  - unfold score_parts in H. by rewrite split_colon_free in H.
Qed.

(** The labels of a result and of its reverse. *)
Lemma labels_of_mirror (r : value) (h a : Z) :
  score_parts r = Some (h, a) →
  (define_label r).2 = Ok (if h >? a then "home" else "away") ∧
  (define_label (reverse_result r)).2 = Ok (if a >? h then "home" else "away").
Proof.
  intros H. split; apply define_label_parts.
  - by exists h, a.
  - exists a, h. split; [by apply score_parts_reverse | done].
Qed.

(** ** Symmetrization *)

Section Frames.

Variable df : DataFrame.
Hypothesis Hwf : wf_frame df.

Lemma wf_lookup (c : string) : c ∈ columns df ↔ is_Some (series df !! c).
Proof using Hwf.
  destruct Hwf as (_ & Hdom & _).
  rewrite <- elem_of_dom, Hdom. by rewrite elem_of_list_to_set.
Qed.

Lemma wf_column (c : string) :
  c ∈ columns df →
  series df !! c = Some (column df c) ∧ length (column df c) = nrows df.
Proof using Hwf.
  intros [cells Hc]%wf_lookup. unfold column. rewrite Hc. split; [done|].
  destruct Hwf as (_ & _ & Hlen). by apply (Hlen c).
Qed.

Lemma same_shape_self : same_shape df (series df).
Proof using Hwf. split; [done|]. by destruct Hwf as (_ & _ & Hlen). Qed.

Lemma same_shape_insert (m : gmap string (list value)) (k : string)
    (cells : list value) :
  k ∈ columns df → length cells = nrows df →
  same_shape df m → same_shape df (<[k := cells]> m).
Proof using Hwf.
  intros Hk Hlen [Hdom Hall]. split.
  - rewrite dom_insert_L, Hdom.
    apply wf_lookup, elem_of_dom in Hk. set_solver.
  - by apply map_Forall_insert_2.
Qed.

Lemma swap_step_shape (m : gmap string (list value)) (col : string) :
  col ∈ columns df → same_shape df m → same_shape df (swap_step df m col).
Proof using Hwf.
  intros Hcol Hm. unfold swap_step.
  destruct (PyStr.contains "home" col).
  - case_bool_decide as Hin; [|done].
    apply same_shape_insert; [done | by apply wf_column |].
    apply same_shape_insert; [done | by apply wf_column | done].
  - destruct (PyStr.contains "away" col); [|done].
    case_bool_decide as Hin; [|done].
    apply same_shape_insert; [done | by apply wf_column |].
    apply same_shape_insert; [done | by apply wf_column | done].
Qed.

Lemma swap_columns_shape : same_shape df (swap_columns df).
Proof using Hwf.
  unfold swap_columns.
  assert (H : ∀ l m, (∀ c, c ∈ l → c ∈ columns df) → same_shape df m →
                     same_shape df (foldl (swap_step df) m l)).
  { induction l as [|c l IH]; intros m Hl Hm; [done|]. simpl.
    apply IH; [set_solver|]. apply swap_step_shape; [set_solver | done]. }
  apply H; [done | apply same_shape_self].
Qed.

Lemma swapped_frame_shape (results : list value) :
  series df !! "result" = Some results →
  same_shape df (series (swapped_frame df results)).
Proof using Hwf.
  intros Hr. unfold swapped_frame. cbn [series].
  apply same_shape_insert; [| |apply swap_columns_shape].
  - apply wf_lookup. by rewrite Hr.
  - rewrite length_fmap. destruct Hwf as (_ & _ & Hlen). by apply (Hlen "result").
Qed.

(** The rows of a concatenation: those of the first frame, then those of
    the second. *)
Lemma concat_rows_row_l (b : DataFrame) (i : nat) :
  same_shape df (series b) → (i < nrows df)%nat →
  row_at (concat_rows df b) i = row_at df i.
Proof using Hwf.
  intros [Hdom Hall] Hi. apply map_eq. intros c.
  unfold row_at, concat_rows. cbn [series].
  rewrite !lookup_omap, map_lookup_zip_with.
  destruct (series df !! c) as [x|] eqn:Ex; [|done]. cbn.
  assert (is_Some (series b !! c)) as [y Ey].
  { apply elem_of_dom. rewrite Hdom. apply elem_of_dom. by rewrite Ex. }
  rewrite Ey. cbn. apply lookup_app_l.
  destruct Hwf as (_ & _ & Hlen). by rewrite (Hlen c x).
Qed.

Lemma concat_rows_row_r (b : DataFrame) (i : nat) :
  same_shape df (series b) →
  row_at (concat_rows df b) (nrows df + i) = row_at b i.
Proof using Hwf.
  intros [Hdom Hall]. apply map_eq. intros c.
  unfold row_at, concat_rows. cbn [series].
  rewrite !lookup_omap, map_lookup_zip_with.
  destruct (series df !! c) as [x|] eqn:Ex; cbn.
  - assert (is_Some (series b !! c)) as [y Ey].
    { apply elem_of_dom. rewrite Hdom. apply elem_of_dom. by rewrite Ex. }
    rewrite Ey. cbn.
    destruct Hwf as (_ & _ & Hlen). rewrite <- (Hlen c x) by done.
    by rewrite lookup_app_r, Nat.add_comm, Nat.add_sub by lia.
  - assert (series b !! c = None) as ->; [|done].
    apply not_elem_of_dom. rewrite Hdom. by apply not_elem_of_dom.
Qed.

(** The swap loop as a list of assignments. *)
Lemma swap_step_assign (m : gmap string (list value)) (col : string) :
  swap_step df m col = foldl (assign df) m (swap_assignments (columns df) col).
Proof.
  unfold swap_step, swap_assignments, assign.
  destruct (PyStr.contains "home" col).
  - by case_bool_decide.
  - destruct (PyStr.contains "away" col); [|done]. by case_bool_decide.
Qed.

Lemma swap_columns_plan :
  swap_columns df
  = foldl (assign df) (series df) (columns df ≫= swap_assignments (columns df)).
Proof.
  unfold swap_columns. generalize (series df).
  generalize (columns df) at 1 3. intros l.
  induction l as [|c l IH]; intros m; [done|].
  rewrite bind_cons, foldl_app. cbn [foldl]. by rewrite swap_step_assign, IH.
Qed.

Lemma lookup_assign_plan (plan : list (string * string))
    (m : gmap string (list value)) (c : string) :
  foldl (assign df) m plan !! c
  = match last_source plan c with
    | Some s => Some (column df s)
    | None => m !! c
    end.
Proof.
  revert m. induction plan as [|[t s] plan IH]; intros m; [done|].
  cbn [foldl last_source]. rewrite IH.
  destruct (last_source plan c); [done|].
  unfold assign. cbn [fst snd]. rewrite lookup_insert.
  case_bool_decide; by case_decide.
Qed.

(** A column of the swapped frame other than ['result']: the cells of
    the source of the last assignment to it, its own when there is
    none. *)
Lemma swapped_frame_column (results : list value) (c : string) :
  c ∈ columns df → c ≠ "result" →
  series (swapped_frame df results) !! c
  = Some (column df
            (default c (last_source
                          (columns df ≫= swap_assignments (columns df)) c))).
Proof using Hwf.
  intros Hc Hne. unfold swapped_frame. cbn [series].
  rewrite lookup_insert_ne by done.
  rewrite swap_columns_plan, lookup_assign_plan.
  destruct (last_source _ c); [done|]. cbn. by apply wf_column.
Qed.

Lemma row_at_column (c : string) (i : nat) :
  c ∈ columns df → row_at df i !! c = column df c !! i.
Proof using Hwf.
  intros [Hc _]%wf_column. unfold row_at. by rewrite lookup_omap, Hc.
Qed.

End Frames.

(** What [symmetrize_games] returns for a frame with a ['result']
    column: the rows of the frame, then the rows of the swapped frame. *)
Lemma symmetrize_games_rows (df : DataFrame) (results : list value) :
  wf_frame df → series df !! "result" = Some results →
  ∃ sym, symmetrize_games df = Ok sym ∧
    columns sym = columns df ∧
    index sym = seq 0 (2 * nrows df) ∧
    nrows sym = (2 * nrows df)%nat ∧
    ∀ i, (i < nrows df)%nat →
      row_at sym i = row_at df i ∧
      row_at sym (nrows df + i) = row_at (swapped_frame df results) i.
Proof.
  intros Hwf Hr. unfold symmetrize_games. rewrite Hr. eexists. split; [done|].
  assert (Hn : nrows (concat_rows df (swapped_frame df results))
               = (2 * nrows df)%nat).
  { unfold nrows, concat_rows. cbn [index]. rewrite length_seq.
    unfold nrows, swapped_frame. cbn [index]. lia. }
  split_and!.
  - done.
  - unfold reset_index. cbn [index]. by rewrite Hn.
  - unfold reset_index, nrows at 1. cbn [index]. by rewrite length_seq.
  - intros i Hi.
    pose proof (swapped_frame_shape df Hwf results Hr) as Hs.
    split.
    + by apply (concat_rows_row_l df Hwf).
    + by apply (concat_rows_row_r df Hwf).
Qed.

Lemma swapped_row_result (df : DataFrame) (results : list value) (i : nat) :
  wf_frame df → series df !! "result" = Some results →
  row_at (swapped_frame df results) i !! "result"
  = reverse_result <$> row_at df i !! "result".
Proof.
  intros Hwf Hr. unfold row_at, swapped_frame. cbn [series].
  rewrite !lookup_omap, lookup_insert_eq, Hr. cbn.
  apply list_lookup_fmap.
Qed.

(** The plan of the swap loop on the enriched columns: the last
    assignment to a column reads its counterpart, which is a column
    too. *)
Lemma enriched_sources :
  Forall (λ c,
            default c (last_source
                         (enriched_columns ≫= swap_assignments enriched_columns) c)
            = counterpart c
            ∧ counterpart c ∈ enriched_columns)
    enriched_columns.
Proof. apply (bool_decide_unpack _). by vm_compute. Qed.

Lemma swapped_row_enriched (df : DataFrame) (results : list value)
    (i : nat) (c : string) :
  wf_frame df → columns df = enriched_columns →
  c ∈ enriched_columns → c ≠ "result" →
  row_at (swapped_frame df results) i !! c = row_at df i !! counterpart c.
Proof.
  intros Hwf Hcols Hc Hne.
  pose proof enriched_sources as Hsrc. rewrite Forall_forall in Hsrc.
  destruct (Hsrc c Hc) as [Hlast Hin].
  rewrite (row_at_column df Hwf (counterpart c)) by (by rewrite Hcols).
  unfold row_at at 1. rewrite lookup_omap.
  rewrite (swapped_frame_column df Hwf) by (by rewrite ?Hcols).
  rewrite Hcols, Hlast. done.
Qed.

(** C3. One application of [symmetrize_games] to an enriched table gives
    a table with twice the rows, labelled 0, 1, ... afresh: the rows of
    the input in their order, then their mirrors in the same order.  In
    the mirror of a row every column named after "home" holds what the
    "away" column of the same name held and conversely, the other
    columns are kept, and a result "H:A" has become "A:H". *)
Theorem symmetrize_games_doubles_rows (df : DataFrame) :
  wf_frame df → columns df = enriched_columns →
  ∃ sym, symmetrize_games df = Ok sym ∧
    columns sym = enriched_columns ∧
    nrows sym = (2 * nrows df)%nat ∧
    index sym = seq 0 (2 * nrows df) ∧
    (∀ i, (i < nrows df)%nat → row_at sym i = row_at df i) ∧
    (∀ i c, (i < nrows df)%nat → c ∈ enriched_columns → c ≠ "result" →
       row_at sym (nrows df + i) !! c = row_at df i !! counterpart c) ∧
    (∀ i, (i < nrows df)%nat →
       row_at sym (nrows df + i) !! "result"
       = reverse_result <$> row_at df i !! "result") ∧
    (∀ i h a, (i < nrows df)%nat →
       PyStr.contains ":" h = false → PyStr.contains ":" a = false →
       row_at df i !! "result" = Some (VStr (h +:+ ":" +:+ a)) →
       row_at sym (nrows df + i) !! "result" = Some (VStr (a +:+ ":" +:+ h))) ∧
    counterpart <$> enriched_columns
    = ["finished"; "result"; "awayTeamScore"; "homeTeamScore"; "id"; "events";
       "seriesStartDate"; "away_id"; "home_id"; "round_description";
       "tournamentName"; "uniqueTournament"; "id_away"; "name_away";
       "birthdate_away"; "id_home"; "name_home"; "birthdate_home"].
Proof.
  intros Hwf Hcols.
  assert (is_Some (series df !! "result")) as [results Hr].
  { apply (wf_lookup df Hwf). rewrite Hcols.
    apply (bool_decide_unpack _). by vm_compute. }
  destruct (symmetrize_games_rows df results Hwf Hr)
    as (sym & Hsym & Hc & Hidx & Hn & Hrows).
  exists sym. split_and!; [done | by rewrite Hc | done | done | | | | | by vm_compute].
  - intros i Hi. by apply Hrows.
  - intros i c Hi Hin Hne. destruct (Hrows i Hi) as [_ ->].
    by apply swapped_row_enriched.
  - intros i Hi. destruct (Hrows i Hi) as [_ ->].
    by apply swapped_row_result.
  - intros i h a Hi Hh Ha Hres. destruct (Hrows i Hi) as [_ ->].
    rewrite swapped_row_result, Hres by done.
    change (Some (reverse_result (VStr (h +:+ ":" +:+ a)))
            = Some (VStr (a +:+ ":" +:+ h))).
    by rewrite reverse_result_score.
Qed.

Lemma symmetrize_games_doubles_rows_witness :
  ∃ sym,
    symmetrize_games
      (frame_of_rows enriched_columns
         [sample_enriched_row "3:1" "Australian Open";
          sample_enriched_row "0:3" "Roland Garros"]) = Ok sym ∧
    nrows sym = 4%nat ∧ index sym = [0; 1; 2; 3]%nat.
Proof.
  destruct (symmetrize_games_doubles_rows
              (frame_of_rows enriched_columns
                 [sample_enriched_row "3:1" "Australian Open";
                  sample_enriched_row "0:3" "Roland Garros"]))
    as (sym & H1 & _ & H2 & H3 & _).
  - apply (bool_decide_unpack _). vm_compute. exact I.
  - reflexivity.
  - exists sym. split_and!; [exact H1 | exact H2 | exact H3].
Defined.

(** C1 (as the code has it). A row of the table handed to
    [symmetrize_games] is in the result exactly twice, as itself and as
    its mirror, whose result is the reversed one.  When the label
    function accepts the result "H:A" of the row, it accepts the
    mirror's too, and the two labels are opposite classes when the two
    numbers differ: [home] and [away] when H is greater, [away] and
    [home] when A is greater.  When H equals A both rows are labelled
    [away]. *)
Theorem mirrored_rows_labels (df : DataFrame) :
  wf_frame df → "result" ∈ columns df →
  ∃ sym, symmetrize_games df = Ok sym ∧
    nrows sym = (2 * nrows df)%nat ∧
    ∀ i r, (i < nrows df)%nat → row_at df i !! "result" = Some r →
      row_at sym i = row_at df i ∧
      row_at sym (nrows df + i) !! "result" = Some (reverse_result r) ∧
      (∀ l, (define_label r).2 = Ok l → is_Some (score_parts r)) ∧
      ∀ h a, score_parts r = Some (h, a) →
        (h > a → (define_label r).2 = Ok "home"
                 ∧ (define_label (reverse_result r)).2 = Ok "away") ∧
        (h < a → (define_label r).2 = Ok "away"
                 ∧ (define_label (reverse_result r)).2 = Ok "home") ∧
        (h = a → (define_label r).2 = Ok "away"
                 ∧ (define_label (reverse_result r)).2 = Ok "away").
Proof.
  intros Hwf Hin.
  apply (wf_lookup df Hwf) in Hin as [results Hr].
  destruct (symmetrize_games_rows df results Hwf Hr)
    as (sym & Hsym & _ & _ & Hn & Hrows).
  exists sym. split_and!; [done..|].
  intros i r Hi Hres. destruct (Hrows i Hi) as [Hl Hm]. split_and!.
  - done.
  - by rewrite Hm, swapped_row_result, Hres.
  - intros l (h & a & Hp & _)%define_label_parts. by rewrite Hp.
  - intros h a Hp. destruct (labels_of_mirror r h a Hp) as [H1 H2].
    rewrite H1, H2. split_and!; intros Hha.
    + rewrite (proj2 (Z.gtb_lt h a)) by lia.
      destruct (a >? h) eqn:E; [apply Z.gtb_lt in E; lia | done].
    + rewrite (proj2 (Z.gtb_lt a h)) by lia.
      destruct (h >? a) eqn:E; [apply Z.gtb_lt in E; lia | done].
    + subst. destruct (a >? a) eqn:E; [apply Z.gtb_lt in E; lia | done].
Qed.

Lemma mirrored_rows_labels_witness :
  ∃ sym,
    symmetrize_games
      (frame_of_rows enriched_columns
         [sample_enriched_row "3:1" "Australian Open"]) = Ok sym ∧
    nrows sym = 2%nat.
Proof.
  destruct (mirrored_rows_labels
              (frame_of_rows enriched_columns
                 [sample_enriched_row "3:1" "Australian Open"]))
    as (sym & H1 & H2 & _).
  - apply (bool_decide_unpack _). vm_compute. exact I.
  - apply (bool_decide_unpack _). vm_compute. exact I.
  - exists sym. split; [exact H1 | exact H2].
Defined.

(** C1, the claim as stated fails: the row with the tied result "1:1"
    and its mirror are both labelled [away]. *)
Lemma tied_score_same_label :
  match symmetrize_games
          (frame_of_rows enriched_columns
             [sample_enriched_row "1:1" "Australian Open"]) with
  | Ok sym =>
      column sym "result" = [VStr "1:1"; VStr "1:1"] ∧
      (λ r, (define_label r).2) <$> column sym "result" = [Ok "away"; Ok "away"]
  | Raise _ => False
  end.
Proof. by vm_compute. Qed.

(** ** Feature building *)

(** [Series.map] gives a cell that is not a key of the dictionary the
    missing value. *)
Lemma series_map_unknown {A} (d : gmap string A) (inj : A → value)
    (cells : list value) (i : nat) (s : string) :
  cells !! i = Some (VStr s) → d !! s = None →
  series_map d inj cells !! i = Some VNone.
Proof.
  intros Hc Hd. unfold series_map. rewrite list_lookup_fmap, Hc. cbn.
  by rewrite Hd.
Qed.

(** C2. The specification has the feature builder fail on a tournament
    that the surface table does not list.  The code does not: the lookup
    gives the row a missing surface, nothing is raised or logged, and
    the row is emitted.  For the one-row table of a match at
    "Wimbledon" the features are the label and the identifiers of the
    row, and no surface column at all.  The failure the code prepares,
    a [ValueError] "Unknown tournament surface", is reached only when
    the table has no [uniqueTournament] column. *)
Theorem unknown_tournament_surface_missing :
  (∀ (cells : list value) (i : nat) (s : string),
     cells !! i = Some (VStr s) → tournament_surfaces !! s = None →
     series_map tournament_surfaces VStr cells !! i = Some VNone) ∧
  tournament_surfaces !! "Wimbledon" = None ∧
  match build_features
          (frame_of_rows enriched_columns
             [sample_enriched_row "3:1" "Wimbledon"]) with
  | (lg, Ok features) =>
      lg = [] ∧
      nrows features = 1%nat ∧
      columns features = ["result"; "id_home"; "id_away"; "round_ordinal"] ∧
      row_at features 0
      = list_to_map [("result", VStr "home"); ("id_home", VInt 11);
                     ("id_away", VInt 12); ("round_ordinal", VInt 11)]
  | (_, Raise _) => False
  end ∧
  build_features
    (frame_of_rows (filter (λ c, c ≠ "uniqueTournament") enriched_columns)
       [sample_enriched_row "3:1" "Wimbledon"])
  = ([LogError "Unknown tournament surface: 'uniqueTournament'"],
     Raise (ValueError "Unknown tournament surface: 'uniqueTournament'")).
Proof.
  split_and!.
  - intros cells i s. apply series_map_unknown.
  - by vm_compute.
  - vm_compute. split_and!; reflexivity.
  - by vm_compute.
Qed.

(** * Further properties of the code *)

(** ** Score format *)

Lemma in_0_3_digits (a : ascii) : in_0_3 a = true ↔ a ∈ score_digits.
Proof.
  unfold in_0_3, score_digits. split.
  - intros [H1 H2]%andb_true_iff.
    apply Nat.leb_le in H1. apply Nat.leb_le in H2.
    rewrite <- (ascii_nat_embedding a).
    assert (nat_of_ascii a = 48 ∨ nat_of_ascii a = 49 ∨ nat_of_ascii a = 50
            ∨ nat_of_ascii a = 51)%nat as [-> | [-> | [-> | ->]]] by lia;
      apply (bool_decide_unpack _); by vm_compute.
  - intros H. set_unfold. destruct H as [-> | [-> | [-> | [-> | []]]]]; done.
Qed.

(** X1. The score validator accepts exactly the texts made of a digit
    0-3, a colon and a digit 0-3, with or without one final line feed,
    and raises for none of the other texts nor for a missing score. *)
Theorem validate_score_format_accepts (score : value) :
  (validate_score_format score = Ok true
   ↔ ∃ a b, a ∈ score_digits ∧ b ∈ score_digits ∧
       (score = VStr (String a (String ":" (String b "")))
        ∨ score = VStr (String a (String ":" (String b (String "010" "")))))) ∧
  (∀ s, validate_score_format (VStr s) = Ok true
        ∨ validate_score_format (VStr s) = Ok false) ∧
  validate_score_format VNone = Ok false.
Proof.
  split_and!; [|intros s|done].
  - split.
    + unfold validate_score_format.
      destruct (truthy score); [|done]. cbn [negb].
      destruct score as [| | |s|]; try done. intros [= H].
      destruct s as [|a [|c [|b rest]]]; try done.
      unfold re_match_score in H.
      apply andb_true_iff in H as [H Hr]. apply andb_true_iff in H as [H Hb].
      apply andb_true_iff in H as [Ha Hc].
      apply Ascii.eqb_eq in Hc as ->.
      exists a, b. rewrite <- !in_0_3_digits. split_and!; [done..|].
      apply orb_true_iff in Hr as [->%String.eqb_eq | ->%String.eqb_eq]; auto.
    + intros (a & b & Ha%in_0_3_digits & Hb%in_0_3_digits & [-> | ->]);
        unfold validate_score_format; cbn [truthy String.eqb negb re_match_score];
        by rewrite Ha, Hb.
  - unfold validate_score_format. destruct (truthy (VStr s)); cbn [negb]; [|auto].
    destruct (re_match_score s); auto.
Qed.

(** ** Reversing a result *)

Lemma reverse_result_text (s : string) :
  PyStr.contains ":" s = true →
  ∃ p0 p1, reverse_result (VStr s) = VStr (p1 +:+ ":" +:+ p0) ∧
           PyStr.contains ":" p0 = false ∧ PyStr.contains ":" p1 = false.
Proof.
  intros Hc. destruct (split_two_parts s Hc) as (p0 & p1 & rest & Hs & H0 & H1).
  exists p0, p1. split; [by apply (reverse_result_parts s p0 p1 rest)|done].
Qed.

Lemma reverse_result_plain (s : string) :
  PyStr.contains ":" s = false → reverse_result (VStr s) = VStr s.
Proof. intros H. unfold reverse_result. by rewrite H. Qed.

(** X2. Reversing twice gives back a result "H:A" that has one colon;
    a result with more colons loses what follows the second part at the
    first reversal, so in general three reversals are one; a value that
    is not a text with a colon is left as it is. *)
Theorem reverse_result_twice :
  (∀ h a, PyStr.contains ":" h = false → PyStr.contains ":" a = false →
     reverse_result (reverse_result (VStr (h +:+ ":" +:+ a)))
     = VStr (h +:+ ":" +:+ a)) ∧
  (∀ r, reverse_result (reverse_result (reverse_result r)) = reverse_result r) ∧
  (∀ r, (∀ s, r = VStr s → PyStr.contains ":" s = false) → reverse_result r = r) ∧
  reverse_result (reverse_result (VStr "1:2:3")) = VStr "1:2".
Proof.
  split_and!; [| | |by vm_compute].
  - intros h a Hh Ha. by rewrite !reverse_result_score.
  - intros r. destruct r as [| | |s|]; try done.
    destruct (PyStr.contains ":" s) eqn:Hc.
    + destruct (reverse_result_text s Hc) as (p0 & p1 & -> & H0 & H1).
      by rewrite !reverse_result_score.
    + by rewrite !reverse_result_plain.
  - intros r Hr. destruct r as [| | |s|]; try done.
    by apply reverse_result_plain, Hr.
Qed.

Lemma reverse_result_twice_witness :
  reverse_result (reverse_result (VStr "3:1")) = VStr "3:1" ∧
  reverse_result (VStr "walkover") = VStr "walkover".
Proof.
  destruct reverse_result_twice as (H1 & _ & H3 & _). split.
  - apply (H1 "3" "1"); reflexivity.
  - apply H3. intros s [= <-]. reflexivity.
Defined.

(** ** Symmetrization of any frame *)

Lemma symmetrize_games_wf (df sym : DataFrame) :
  wf_frame df → symmetrize_games df = Ok sym →
  wf_frame sym ∧ columns sym = columns df ∧ nrows sym = (2 * nrows df)%nat.
Proof.
  intros Hwf. unfold symmetrize_games.
  destruct (series df !! "result") as [results|] eqn:Hr; [|done].
  intros [= <-].
  destruct (symmetrize_games_rows df results Hwf Hr) as (sym & Hs & Hc & _ & Hn & _).
  unfold symmetrize_games in Hs. rewrite Hr in Hs. injection Hs as <-.
  split_and!; [|done..].
  destruct (swapped_frame_shape df Hwf results Hr) as [Hdom Hall].
  pose proof Hwf as (Hnd & Hd & Hlen). split_and!.
  - done.
  - cbn [reset_index concat_rows series columns].
    rewrite dom_map_zip_with_L, Hdom, <- Hd. set_solver.
  - rewrite Hn. cbn [reset_index concat_rows series].
    intros c z (x & y & -> & Hx & Hy)%map_lookup_zip_with_Some.
    rewrite length_app, (Hlen c x Hx), (Hall c y Hy). lia.
Qed.

(** X3. Symmetrizing keeps a table well formed and keeps its columns,
    so it can be applied again; it does not stop at the doubled table:
    a second application gives four times the rows of the first
    table. *)
Theorem symmetrize_games_twice (df : DataFrame) :
  wf_frame df → "result" ∈ columns df →
  ∃ sym sym2,
    symmetrize_games df = Ok sym ∧ wf_frame sym ∧ columns sym = columns df ∧
    symmetrize_games sym = Ok sym2 ∧ wf_frame sym2 ∧
    nrows sym2 = (4 * nrows df)%nat.
Proof.
  intros Hwf Hin.
  pose proof Hin as [results Hr]%(wf_lookup df Hwf).
  destruct (symmetrize_games_rows df results Hwf Hr) as (sym & Hs & _).
  destruct (symmetrize_games_wf df sym Hwf Hs) as (Hwf1 & Hc1 & Hn1).
  assert (is_Some (series sym !! "result")) as [results1 Hr1].
  { apply (wf_lookup sym Hwf1). by rewrite Hc1. }
  destruct (symmetrize_games_rows sym results1 Hwf1 Hr1) as (sym2 & Hs2 & _).
  destruct (symmetrize_games_wf sym sym2 Hwf1 Hs2) as (Hwf2 & Hc2 & Hn2).
  exists sym, sym2. split_and!; [done..|]. lia.
Qed.

Lemma symmetrize_games_twice_witness :
  ∃ sym sym2,
    symmetrize_games
      (frame_of_rows ["result"; "home"; "away"]
         [sample_enriched_row "3:1" "Australian Open"]) = Ok sym ∧
    symmetrize_games sym = Ok sym2 ∧ nrows sym2 = 4%nat.
Proof.
  destruct (symmetrize_games_twice
              (frame_of_rows ["result"; "home"; "away"]
                 [sample_enriched_row "3:1" "Australian Open"]))
    as (sym & sym2 & H1 & _ & _ & H2 & _ & H3).
  - apply (bool_decide_unpack _). vm_compute. exact I.
  - apply (bool_decide_unpack _). vm_compute. exact I.
  - exists sym, sym2. split_and!; [exact H1 | exact H2 | exact H3].
Defined.

Lemma contains_prefix (w t : string) : PyStr.contains w (w +:+ t) = true.
Proof. apply contains_spec. by exists "", t. Qed.

Lemma contains_cons (w : string) (c : ascii) (t : string) :
  PyStr.contains w t = true → PyStr.contains w (String c t) = true.
Proof.
  intros (pre & post & ->)%contains_spec. apply contains_spec.
  by exists (String c pre), post.
Qed.

(** Where the replaced word occurred, the replacing word occurs. *)
Lemma replace_contains (old new s : string) :
  old ≠ "" → PyStr.contains old s = true →
  PyStr.contains new (PyStr.replace old new s) = true.
Proof.
  intros Hold. unfold PyStr.replace. induction s as [|c s IH].
  - destruct old; [done|]. done.
  - intros Hc. cbn [PyStr.replace_from].
    destruct (PyStr.startswith old (String c s)) eqn:Hs.
    + apply contains_prefix.
    + apply contains_cons, IH.
      cbn [PyStr.contains] in Hc. rewrite Hs in Hc. done.
Qed.

(** Every assignment of the swap loop is to a column named after "home"
    or "away". *)
Lemma swap_assignments_targets (cols : list string) (col t s : string) :
  (t, s) ∈ swap_assignments cols col →
  PyStr.contains "home" t = true ∨ PyStr.contains "away" t = true.
Proof.
  unfold swap_assignments.
  destruct (PyStr.contains "home" col) eqn:Hh.
  - case_bool_decide; [|by intros ?%elem_of_nil].
    intros [[= -> ->] | [[= -> ->] | []%elem_of_nil]%elem_of_cons]%elem_of_cons.
    + by left.
    + right. by apply replace_contains.
  - destruct (PyStr.contains "away" col) eqn:Ha; [|by intros ?%elem_of_nil].
    case_bool_decide; [|by intros ?%elem_of_nil].
    intros [[= -> ->] | [[= -> ->] | []%elem_of_nil]%elem_of_cons]%elem_of_cons.
    + by right.
    + left. by apply replace_contains.
Qed.

Lemma last_source_none (plan : list (string * string)) (c : string) :
  (∀ t s, (t, s) ∈ plan → t ≠ c) → last_source plan c = None.
Proof.
  induction plan as [|[t s] plan IH]; intros H; [done|].
  cbn [last_source]. rewrite IH by (intros ???; eapply H; by right).
  rewrite bool_decide_eq_false_2; [done|]. eapply H. by left.
Qed.

(** X4. In the mirrored rows a column whose name contains neither
    "home" nor "away" holds what it held in the row mirrored (the
    ['result'] column apart): the swap touches the home and away
    columns only, whatever the columns of the table. *)
Theorem symmetrize_games_keeps_neutral_columns (df : DataFrame) (c : string) :
  wf_frame df → "result" ∈ columns df → c ∈ columns df → c ≠ "result" →
  PyStr.contains "home" c = false → PyStr.contains "away" c = false →
  ∃ sym, symmetrize_games df = Ok sym ∧
    ∀ i, (i < nrows df)%nat →
      row_at sym i !! c = row_at df i !! c ∧
      row_at sym (nrows df + i) !! c = row_at df i !! c.
Proof.
  intros Hwf Hin Hc Hne Hh Ha.
  pose proof Hin as [results Hr]%(wf_lookup df Hwf).
  destruct (symmetrize_games_rows df results Hwf Hr) as (sym & Hs & _ & _ & _ & Hrows).
  exists sym. split; [done|]. intros i Hi.
  destruct (Hrows i Hi) as [-> ->]. split; [done|].
  rewrite (row_at_column df Hwf c) by done.
  unfold row_at. rewrite lookup_omap.
  rewrite (swapped_frame_column df Hwf) by done.
  rewrite last_source_none; [done|].
  intros t s (col & Hts & _)%list_elem_of_bind ->.
  apply swap_assignments_targets in Hts as [Ht | Ht]; congruence.
Qed.

Lemma symmetrize_games_keeps_neutral_columns_witness :
  ∃ sym,
    symmetrize_games
      (frame_of_rows ["result"; "home_id"; "tournamentName"]
         [sample_enriched_row "3:1" "Australian Open"]) = Ok sym ∧
    row_at sym 1 !! "tournamentName" = Some (VStr "Australian Open").
Proof.
  destruct (symmetrize_games_keeps_neutral_columns
              (frame_of_rows ["result"; "home_id"; "tournamentName"]
                 [sample_enriched_row "3:1" "Australian Open"])
              "tournamentName")
    as (sym & H1 & H2).
  - apply (bool_decide_unpack _). vm_compute. exact I.
  - apply (bool_decide_unpack _). vm_compute. exact I.
  - apply (bool_decide_unpack _). vm_compute. exact I.
  - discriminate.
  - reflexivity.
  - reflexivity.
  - exists sym. split; [exact H1|].
    destruct (H2 0%nat) as [_ H3]; [vm_compute; lia|]. exact H3.
Defined.

(** ** The match table *)

(** A code the classifier returns is empty or a key of the ordinal
    table. *)
Lemma map_round_description_code (v : value) (code : string) :
  map_round_description v = Ok code →
  code = "" ∨ is_Some (ordinal_mapping !! code).
Proof.
  unfold map_round_description. destruct (truthy v); cbn [negb].
  - destruct v as [| | |s|]; try done.
    destruct (re_search_ignorecase _ s).
    + intros [= <-]. right. by exists 3.
    + destruct (round_map !! s) as [c|] eqn:E; [|done]. intros [= <-]. right.
      assert (H : map_Forall (λ _ c, is_Some (ordinal_mapping !! c)) round_map).
      { apply (bool_decide_unpack _). by vm_compute. }
      by apply (H s c).
  - intros [= <-]. by left.
Qed.

Lemma emit_block_emitted (rd tn ut : value) (b : Block) (g : gmap string value) :
  emit_block rd tn ut b = Ok (Some g) → emitted_for tn ut g.
Proof.
  unfold emit_block. destruct (default [] (participants b)) as [|p0 rest]; [done|].
  destruct (team_id p0) as [h|]; [|done]. cbn [mbind result_bind].
  destruct (match rest with [] => Ok VNone | p1 :: _ => team_id p1 end) as [a|];
    [|done]. cbn [mbind result_bind].
  destruct (map_round_description rd) as [code|] eqn:Hc; [|done].
  cbn [mbind result_bind]. intros [= <-]. split_and!.
  - rewrite get_insert_ne by done. by rewrite get_insert_eq.
  - by rewrite get_insert_eq.
  - exists code. split; [|by eapply map_round_description_code].
    rewrite !get_insert_ne by done. by rewrite get_insert_eq.
Qed.

Lemma extract_block_emitted (rd tn ut : value) (b b' : Block)
    (lg : list log_record) (g : gmap string value) :
  extract_block rd tn ut b = (b', lg, Ok (Some g)) → emitted_for tn ut g.
Proof.
  unfold extract_block.
  destruct (is_skipped _) as [[|]|]; [done| |done].
  destruct (rewrite_result b) as [b1|]; [|done].
  destruct (validate_score_format _); [|done].
  intros [= _ _ H]. by eapply emit_block_emitted.
Qed.

Lemma extract_blocks_emitted (rd tn ut : value) (bs bs' : list Block)
    (lg : list log_record) (gs : list (gmap string value)) :
  extract_blocks rd tn ut bs = (bs', lg, Ok gs) →
  (length gs ≤ length bs)%nat ∧ Forall (emitted_for tn ut) gs.
Proof.
  revert bs' lg gs. induction bs as [|b bs IH]; intros bs' lg gs.
  - intros [= _ _ <-]. by split.
  - cbn [extract_blocks].
    destruct (extract_block rd tn ut b) as [[b1 lg1] [g|e]] eqn:Hb; [|done].
    destruct (extract_blocks rd tn ut bs) as [[bs1 lg2] [gs1|e]]; [|done].
    intros [= _ _ <-]. destruct (IH _ _ _ eq_refl) as [Hlen Hall].
    destruct g as [g|]; simpl.
    + split; [lia|]. constructor; [by eapply extract_block_emitted | done].
    + split; [lia | done].
Qed.

Lemma extract_rounds_emitted (tn ut : value) (rs rs' : list Round)
    (lg : list log_record) (gs : list (gmap string value)) :
  extract_rounds tn ut rs = (rs', lg, Ok gs) →
  (length gs ≤ length (rs ≫= round_blocks))%nat ∧ Forall (emitted_for tn ut) gs.
Proof.
  revert rs' lg gs. induction rs as [|r rs IH]; intros rs' lg gs.
  - intros [= _ _ <-]. by split.
  - cbn [extract_rounds]. unfold extract_round. rewrite bind_cons, length_app.
    unfold round_blocks at 1.
    destruct (blocks r) as [bs|]; cbn [default id].
    + destruct (extract_blocks _ tn ut bs) as [[bs1 lg1] [gs1|e]] eqn:Hb; [|done].
      destruct (extract_rounds tn ut rs) as [[rs1 lg2] [gs2|e]]; [|done].
      intros [= _ _ <-]. destruct (IH _ _ _ eq_refl) as [Hlen Hall].
      destruct (extract_blocks_emitted _ _ _ _ _ _ _ Hb) as [Hlen1 Hall1].
      rewrite length_app. split; [lia | by apply Forall_app].
    + destruct (extract_rounds tn ut rs) as [[rs1 lg2] [gs2|e]]; [|done].
      intros [= _ _ <-]. destruct (IH _ _ _ eq_refl) as [Hlen Hall].
      split; [cbn; lia | done].
Qed.

Lemma extract_brackets_emitted (cs cs' : list Bracket)
    (lg : list log_record) (gs : list (gmap string value)) :
  extract_brackets cs = (cs', lg, Ok gs) →
  (length gs ≤ length (cs ≫= bracket_blocks))%nat ∧
  Forall (λ g, ∃ c, c ∈ cs
                    ∧ emitted_for (tournamentName c) (uniqueTournamentName c) g) gs.
Proof.
  revert cs' lg gs. induction cs as [|c cs IH]; intros cs' lg gs.
  - intros [= _ _ <-]. by split.
  - cbn [extract_brackets]. unfold extract_bracket. rewrite bind_cons, length_app.
    unfold bracket_blocks at 1.
    assert (Hweak : ∀ gs2,
      Forall (λ g, ∃ c0, c0 ∈ cs ∧ emitted_for (tournamentName c0)
                                      (uniqueTournamentName c0) g) gs2 →
      Forall (λ g, ∃ c0, c0 ∈ c :: cs ∧ emitted_for (tournamentName c0)
                                           (uniqueTournamentName c0) g) gs2).
    { intros gs2 H. eapply Forall_impl; [exact H|]. intros g (c0 & H0 & H1).
      exists c0. split; [by right | done]. }
    destruct (rounds c) as [rs|]; cbn [default id].
    + destruct (extract_rounds _ _ rs) as [[rs1 lg1] [gs1|e]] eqn:Hr; [|done].
      destruct (extract_brackets cs) as [[cs1 lg2] [gs2|e]]; [|done].
      intros [= _ _ <-]. destruct (IH _ _ _ eq_refl) as [Hlen Hall].
      destruct (extract_rounds_emitted _ _ _ _ _ _ Hr) as [Hlen1 Hall1].
      rewrite length_app. split; [lia|]. apply Forall_app. split; [|by apply Hweak].
      eapply Forall_impl; [exact Hall1|]. intros g Hg. exists c. split; [by left|done].
    + destruct (extract_brackets cs) as [[cs1 lg2] [gs2|e]]; [|done].
      intros [= _ _ <-]. destruct (IH _ _ _ eq_refl) as [Hlen Hall].
      split; [cbn; lia | by apply Hweak].
Qed.

(** X5. When match extraction returns a table, the table has at most
    one record per block of the document, and every record carries the
    two tournament names of a bracket of the document and a round code
    that is either empty or one the ordinal table of the feature builder
    knows. *)
Theorem extracted_records_invariants
    (doc doc' : list Bracket) (lg : list log_record) (games : list MatchRecord) :
  extract_games_from_cuptree doc = (doc', lg, Ok games) →
  (length games ≤ length (doc ≫= bracket_blocks))%nat ∧
  ∀ r, r ∈ games →
    (∃ c, c ∈ doc ∧ mr_tournamentName r = tournamentName c
          ∧ uniqueTournament r = uniqueTournamentName c) ∧
    ∃ code, round_description r = VStr code ∧
            (code = "" ∨ is_Some (ordinal_mapping !! code)).
Proof.
  unfold extract_games_from_cuptree.
  destruct (extract_brackets doc) as [[cs lg1] [gs|e]] eqn:He; [|done].
  cbn [mbind result_bind]. intros [= _ _ Hg].
  destruct (extract_brackets_emitted _ _ _ _ He) as [Hlen Hall].
  assert (games = match_record <$> gs) as ->.
  { unfold games_frame in Hg. destruct gs as [|g gs]; [by injection Hg|].
    destruct (missing_column _ _); [done|]. by injection Hg. }
  rewrite length_fmap. split; [done|].
  intros r (g & -> & Hin)%list_elem_of_fmap.
  rewrite Forall_forall in Hall.
  destruct (Hall g Hin) as (c & Hc & Htn & Hut & code & Hcode & Hord).
  split; [by exists c | by exists code].
Qed.

Lemma extracted_records_invariants_witness :
  ∃ doc' lg games,
    extract_games_from_cuptree
      [sample_bracket "Semifinals"
         [sample_block (VStr "3:1") (VStr "3") (VStr "1")]] = (doc', lg, Ok games) ∧
    (length games ≤ 1)%nat.
Proof.
  destruct (extract_games_from_cuptree _) as [[doc' lg] r] eqn:E.
  assert (∃ games, r = Ok games) as [games ->].
  { vm_compute in E. injection E as _ _ <-. eauto. }
  exists doc', lg, games. split; [reflexivity|].
  exact (proj1 (extracted_records_invariants _ _ _ _ E)).
Defined.

(** ** The roster and the team dictionaries *)

(** The three entries roster extraction writes into a team are not among
    the nine columns of the roster. *)
Lemma project_stamp (p : Participant) (t : gmap string value) :
  project_participant (stamp_team p t) = project_participant t.
Proof.
  unfold project_participant, stamp_team, get.
  by rewrite !lookup_insert_ne by done.
Qed.

Lemma visit_participant_team (p : Participant) :
  project_participant (visit_participant p).2
  = project_participant (default ∅ (team p)).
Proof.
  unfold visit_participant. destruct (team p); cbn [snd default]; apply project_stamp.
Qed.

Lemma visit_participants_teams (ps : list Participant) :
  project_participant <$> (visit_participants ps).2
  = project_participant <$> ((λ p, default ∅ (team p)) <$> ps).
Proof.
  induction ps as [|p ps IH]; [done|]. cbn [visit_participants].
  pose proof (visit_participant_team p) as Hp.
  destruct (visit_participant p) as [p' t].
  destruct (visit_participants ps) as [ps' ts]. cbn [snd] in *.
  rewrite !fmap_cons. by rewrite Hp, IH.
Qed.

Lemma visit_block_teams (b : Block) :
  project_participant <$> (visit_block b).2
  = project_participant <$> block_teams b.
Proof.
  unfold visit_block, block_teams. destruct (participants b) as [ps|]; [|done].
  pose proof (visit_participants_teams ps) as Hp.
  by destruct (visit_participants ps) as [ps' ts].
Qed.

Lemma visit_blocks_teams (bs : list Block) :
  project_participant <$> (visit_blocks bs).2
  = project_participant <$> (bs ≫= block_teams).
Proof.
  induction bs as [|b bs IH]; [done|]. cbn [visit_blocks].
  pose proof (visit_block_teams b) as Hb.
  destruct (visit_block b) as [b' ts].
  destruct (visit_blocks bs) as [bs' ts']. cbn [snd] in *.
  rewrite bind_cons, !fmap_app. by rewrite Hb, IH.
Qed.

Lemma visit_round_teams (r : Round) :
  project_participant <$> (visit_round r).2
  = project_participant <$> (round_blocks r ≫= block_teams).
Proof.
  unfold visit_round, round_blocks. destruct (blocks r) as [bs|]; [|done].
  pose proof (visit_blocks_teams bs) as Hb.
  by destruct (visit_blocks bs) as [bs' ts].
Qed.

Lemma visit_rounds_teams (rs : list Round) :
  project_participant <$> (visit_rounds rs).2
  = project_participant <$> ((rs ≫= round_blocks) ≫= block_teams).
Proof.
  induction rs as [|r rs IH]; [done|]. cbn [visit_rounds].
  pose proof (visit_round_teams r) as Hr.
  destruct (visit_round r) as [r' ts].
  destruct (visit_rounds rs) as [rs' ts']. cbn [snd] in *.
  rewrite bind_cons, bind_app, !fmap_app. by rewrite Hr, IH.
Qed.

Lemma visit_brackets_teams (cs cs' : list Bracket) (ts : list (gmap string value)) :
  visit_brackets cs = (cs', Ok ts) →
  project_participant <$> ts = project_participant <$> doc_teams cs.
Proof.
  unfold doc_teams. revert cs' ts. induction cs as [|c cs IH]; intros cs' ts.
  - by intros [= _ <-].
  - cbn [visit_brackets]. rewrite bind_cons, bind_app, fmap_app.
    unfold bracket_blocks at 1.
    destruct (rounds c) as [rs|]; [|done]. cbn [default id].
    pose proof (visit_rounds_teams rs) as Hr.
    destruct (visit_rounds rs) as [rs' ts1].
    destruct (visit_brackets cs) as [cs1 [ts2|e]]; [|done].
    cbn [mbind result_bind snd] in *. intros [= _ <-].
    rewrite fmap_app. by rewrite Hr, (IH _ _ eq_refl).
Qed.

Lemma get_all_participants_roster (doc doc' : list Bracket)
    (roster : list ParticipantRecord) :
  get_all_participants doc = (doc', Ok roster) →
  roster = drop_duplicates [] (project_participant <$> doc_teams doc)
  ∧ doc_teams doc ≠ [].
Proof.
  unfold get_all_participants. destruct (forallb _ doc); [done|].
  destruct (visit_brackets doc) as [cs [ts|e]] eqn:Hv; [|done].
  cbn [mbind result_bind].
  destruct (missing_column ts roster_columns) eqn:Hm; [done|].
  intros [= _ <-]. pose proof (visit_brackets_teams _ _ _ Hv) as Ht.
  split; [by rewrite Ht|].
  intros Hnil. rewrite Hnil in Ht. apply fmap_nil_inv in Ht. subst ts.
  by vm_compute in Hm.
Qed.

(** X6. The stored roster of a document is the de-duplicated list of
    the nine-column projections of the participants' team dictionaries
    in the order of the walk: the entries [winner], [order] and
    [teamSeed] that extraction writes into the teams do not reach it. *)
Theorem roster_is_projection_of_teams
    (doc doc' : list Bracket) (roster : list ParticipantRecord) :
  get_all_participants doc = (doc', Ok roster) →
  roster = drop_duplicates [] (project_participant <$> doc_teams doc) ∧
  ∀ p, p ∈ roster ↔ ∃ t, t ∈ doc_teams doc ∧ p = project_participant t.
Proof.
  intros [-> _]%get_all_participants_roster. split; [done|].
  intros p. rewrite drop_duplicates_elem, list_elem_of_fmap. set_solver.
Qed.

Lemma roster_is_projection_of_teams_witness :
  ∃ doc' roster,
    get_all_participants
      [sample_bracket "Final" [sample_block (VStr "3:1") (VStr "3") (VStr "1")]]
    = (doc', Ok roster) ∧
    roster
    = drop_duplicates []
        (project_participant
           <$> doc_teams
                 [sample_bracket "Final"
                    [sample_block (VStr "3:1") (VStr "3") (VStr "1")]]).
Proof.
  destruct (get_all_participants _) as [doc' r] eqn:E.
  assert (∃ roster, r = Ok roster) as [roster ->].
  { vm_compute in E. injection E as _ <-. eauto. }
  exists doc', roster. split; [reflexivity|].
  exact (proj1 (roster_is_projection_of_teams _ _ _ E)).
Defined.

(** X7. Roster extraction never returns an empty roster: a document
    without participants (or without brackets) makes it raise, since
    the columns it selects do not exist then. *)
Theorem roster_never_empty (doc : list Bracket) :
  (∀ doc' roster, get_all_participants doc = (doc', Ok roster) → roster ≠ []) ∧
  (doc_teams doc = [] → ∃ e, (get_all_participants doc).2 = Raise e).
Proof.
  split.
  - intros doc' roster [-> Hne]%get_all_participants_roster.
    destruct (doc_teams doc) as [|t ts]; [done|]. done.
  - intros Hnil. destruct (get_all_participants doc) as [doc' [roster|e]] eqn:E.
    + by apply get_all_participants_roster in E as [_ ?].
    + by exists e.
Qed.

Lemma roster_never_empty_witness :
  ∃ e, (get_all_participants
          [sample_bracket "Final"
             [sample_block_with [] (VStr "3:1") (VStr "3") (VStr "1")]]).2
       = Raise e.
Proof.
  destruct (roster_never_empty
              [sample_bracket "Final"
                 [sample_block_with [] (VStr "3:1") (VStr "3") (VStr "1")]])
    as [_ H].
  apply H. reflexivity.
Defined.

(** ** De-duplication across files *)

Section DropDuplicatesCompose.

Context {A : Type} `{EqDecision A}.

(** Only the members of [seen] matter. *)
Lemma drop_duplicates_ext (seen seen' l : list A) :
  (∀ x, x ∈ seen ↔ x ∈ seen') →
  drop_duplicates seen l = drop_duplicates seen' l.
Proof.
  revert seen seen'. induction l as [|y l IH]; intros seen seen' Hs; [done|].
  cbn [drop_duplicates]. rewrite (bool_decide_ext _ _ (Hs y)).
  case_bool_decide; [by apply IH|]. f_equal. apply IH. set_solver.
Qed.

Lemma drop_duplicates_app (seen l1 l2 : list A) :
  drop_duplicates seen (l1 ++ l2)
  = drop_duplicates seen l1 ++ drop_duplicates (l1 ++ seen) l2.
Proof.
  revert seen. induction l1 as [|y l1 IH]; intros seen; [done|].
  cbn [drop_duplicates app]. case_bool_decide as Hy.
  - rewrite IH. f_equal. apply drop_duplicates_ext. set_solver.
  - cbn [app]. rewrite IH. do 2 f_equal. apply drop_duplicates_ext. set_solver.
Qed.

(** De-duplicating what is de-duplicated already changes nothing. *)
Lemma drop_duplicates_again (seen0 seen l : list A) :
  seen0 ⊆ seen →
  drop_duplicates seen (drop_duplicates seen0 l) = drop_duplicates seen l.
Proof.
  revert seen0 seen. induction l as [|y l IH]; intros seen0 seen Hs; [done|].
  cbn [drop_duplicates]. case_bool_decide as H0.
  - rewrite bool_decide_eq_true_2 by set_solver. by apply IH.
  - cbn [drop_duplicates]. case_bool_decide as H1.
    + apply IH. set_solver.
    + f_equal. apply IH. set_solver.
Qed.

End DropDuplicatesCompose.

Lemma process_files_roster (files docs : list (list Bracket))
    (lg : list log_record) (pl : list (list ParticipantRecord))
    (gl : list (list MatchRecord)) (seen : list ParticipantRecord) :
  process_files files = (docs, lg, Ok (pl, gl)) →
  drop_duplicates seen (concat pl)
  = drop_duplicates seen (project_participant <$> (files ≫= doc_teams)).
Proof.
  revert docs lg pl gl seen.
  induction files as [|f files IH]; intros docs lg pl gl seen.
  - by intros [= _ _ <- _].
  - cbn [process_files].
    destruct (get_all_participants f) as [f1 [ps|e]] eqn:Hp; [|done].
    destruct (extract_games_from_cuptree f1) as [[f2 lg1] [gs|e]]; [|done].
    destruct (process_files files) as [[docs1 lg2] [[pl1 gl1]|e]] eqn:Hr; [|done].
    cbn [mbind result_bind]. intros [= _ _ <- _].
    apply get_all_participants_roster in Hp as [-> _].
    cbn [concat]. rewrite bind_cons, fmap_app, !drop_duplicates_app.
    rewrite (drop_duplicates_again [] seen) by set_solver. f_equal.
    rewrite <- (IH _ _ _ _ _ eq_refl).
    apply drop_duplicates_ext. intros x.
    rewrite !elem_of_app, drop_duplicates_elem. set_solver.
Qed.

(** X8. The roster of a whole run is the de-duplicated list of the
    projected team dictionaries of all the files processed, in the order
    of the files: de-duplicating each file first and the concatenation
    afterwards is one de-duplication, and the repeated one before the
    file is written changes nothing. *)
Theorem run_roster_is_one_deduplication
    (max_cuptrees : option nat) (files docs : list (list Bracket))
    (lg : list log_record) (t : Tables) :
  process_all_data max_cuptrees files = (docs, lg, inr t) →
  tbl_participants t
  = drop_duplicates []
      (project_participant
         <$> ((match max_cuptrees with
               | Some n => take n files
               | None => files
               end) ≫= doc_teams)) ∧
  drop_duplicates [] (tbl_participants t) = tbl_participants t.
Proof.
  unfold process_all_data. destruct files as [|f files]; [done|].
  destruct (process_files _) as [[docs' lg'] [[pl gl]|e]] eqn:Hr; [|done].
  intros [= _ _ <-]. cbn [tbl_participants]. split.
  - by apply (process_files_roster _ _ _ _ _ _ Hr).
  - apply drop_duplicates_again. set_solver.
Qed.

Lemma run_roster_is_one_deduplication_witness :
  ∃ t,
    (process_all_data (Some 1%nat)
       [[sample_bracket "Final" [sample_block (VStr "3:1") (VStr "3") (VStr "1")]];
        [sample_bracket "Final" [sample_block (VStr "0:3") (VStr "0") (VStr "3")]]]).2
    = inr t ∧
    drop_duplicates [] (tbl_participants t) = tbl_participants t.
Proof.
  destruct (process_all_data _ _) as [[docs lg] r] eqn:E.
  assert (∃ t, r = inr t) as [t ->].
  { vm_compute in E. injection E as _ _ <-. eauto. }
  exists t. split; [reflexivity|].
  exact (proj2 (run_roster_is_one_deduplication _ _ _ _ _ E)).
Defined.

(** ** Blocks the extraction cannot read *)

Lemma extract_block_rewrite_raises (rd tn ut : value) (b : Block) (s : string)
    (e : exn) :
  get (b_fields b) "result" = VStr s → s ∈ sentinel_results →
  score_string (b_fields b) = Raise e →
  extract_block rd tn ut b = (b, [], Raise e).
Proof.
  intros Hr Hs He. unfold extract_block.
  rewrite Hr, (sentinel_not_skipped s) by (by apply lower_sentinel).
  unfold rewrite_result. rewrite Hr. unfold is_sentinel.
  rewrite bool_decide_eq_true_2 by done. by rewrite He.
Qed.

(** X9. A block with the result "home won", "away won" or "on-going"
    must carry both scores as text: where a score is absent extraction
    stops with a [KeyError] naming it, where a score is not text (a
    number, say) it stops with a [TypeError]; the home score is looked
    at first, the block is left as it was, and nothing is logged or
    emitted for it. *)
Theorem sentinel_block_needs_text_scores
    (rd tn ut : value) (b : Block) (s : string) :
  get (b_fields b) "result" = VStr s → s ∈ sentinel_results →
  (b_fields b !! "homeTeamScore" = None →
   extract_block rd tn ut b = (b, [], Raise (KeyError "homeTeamScore"))) ∧
  (∀ v, b_fields b !! "homeTeamScore" = Some v → (∀ h, v ≠ VStr h) →
        extract_block rd tn ut b = (b, [], Raise TypeError)) ∧
  (∀ h, b_fields b !! "homeTeamScore" = Some (VStr h) →
        b_fields b !! "awayTeamScore" = None →
        extract_block rd tn ut b = (b, [], Raise (KeyError "awayTeamScore"))) ∧
  (∀ h v, b_fields b !! "homeTeamScore" = Some (VStr h) →
          b_fields b !! "awayTeamScore" = Some v → (∀ a, v ≠ VStr a) →
          extract_block rd tn ut b = (b, [], Raise TypeError)).
Proof.
  intros Hr Hs. split_and!.
  - intros Hh. apply (extract_block_rewrite_raises _ _ _ _ s); [done..|].
    unfold score_string, getitem. by rewrite Hh.
  - intros v Hh Hv. apply (extract_block_rewrite_raises _ _ _ _ s); [done..|].
    unfold score_string, getitem. rewrite Hh. cbn [mbind result_bind].
    destruct v as [| | |h|]; try done. by destruct (Hv h).
  - intros h Hh Ha. apply (extract_block_rewrite_raises _ _ _ _ s); [done..|].
    unfold score_string, getitem. rewrite Hh, Ha. done.
  - intros h v Hh Ha Hv. apply (extract_block_rewrite_raises _ _ _ _ s); [done..|].
    unfold score_string, getitem. rewrite Hh, Ha. cbn [mbind result_bind add_str].
    destruct v as [| | |a|]; try done. by destruct (Hv a).
Qed.

Lemma sentinel_block_needs_text_scores_witness :
  let b := sample_block (VStr "on-going") (VInt 1) (VInt 1) in
  extract_block (VStr "Final") VNone VNone b = (b, [], Raise TypeError).
Proof.
  destruct (sentinel_block_needs_text_scores (VStr "Final") VNone VNone
              (sample_block (VStr "on-going") (VInt 1) (VInt 1)) "on-going")
    as (_ & H & _).
  - reflexivity.
  - apply (bool_decide_unpack _). vm_compute. exact I.
  - apply (H (VInt 1)); [reflexivity | discriminate].
Defined.

(** X10. A block whose result is missing, null, empty or otherwise
    false in a condition is not skipped: its result is logged as an
    invalid score and the block goes on to emission with that result.
    A block whose result is true in a condition without being text
    stops extraction with an [AttributeError]. *)
Theorem block_without_text_result (rd tn ut : value) (b : Block) :
  (truthy (get (b_fields b) "result") = false →
   extract_block rd tn ut b
   = (b, [LogError ("Invalid score format: "
                      +:+ py_str (get (b_fields b) "result"))],
      emit_block rd tn ut b)) ∧
  (truthy (get (b_fields b) "result") = true →
   (∀ s, get (b_fields b) "result" ≠ VStr s) →
   extract_block rd tn ut b = (b, [], Raise AttributeError)) ∧
  (b_fields b !! "result" = None →
   extract_block rd tn ut b
   = (b, [LogError "Invalid score format: None"], emit_block rd tn ut b)).
Proof.
  assert (Hfalsy : truthy (get (b_fields b) "result") = false →
    extract_block rd tn ut b
    = (b, [LogError ("Invalid score format: "
                       +:+ py_str (get (b_fields b) "result"))],
       emit_block rd tn ut b)).
  { intros Ht.
    assert (Hs : is_sentinel (get (b_fields b) "result") = false).
    { destruct (get (b_fields b) "result") as [| | |s|]; try done.
      apply bool_decide_eq_false. intros Hs. cbn [truthy] in Ht.
      apply negb_false_iff, String.eqb_eq in Ht as ->. by vm_compute in Hs;
        set_unfold; destruct_or!. }
    rewrite (extract_block_unskipped rd tn ut b b false); [done| | |].
    - unfold is_skipped. by rewrite Ht.
    - by apply rewrite_result_other.
    - unfold validate_score_format. by rewrite Ht. }
  split_and!; [done| |].
  - intros Ht Hn. unfold extract_block, is_skipped. rewrite Ht.
    destruct (get (b_fields b) "result") as [| | |s|]; try done.
    by destruct (Hn s).
  - intros Hnone. assert (Hg : get (b_fields b) "result" = VNone)
      by (unfold get; by rewrite Hnone).
    rewrite Hfalsy by (by rewrite Hg). by rewrite Hg.
Qed.

Lemma block_without_text_result_witness :
  let b := sample_block VNone (VStr "3") (VStr "1") in
  extract_block (VStr "Final") VNone VNone b
  = (b, [LogError "Invalid score format: None"],
     emit_block (VStr "Final") VNone VNone b).
Proof.
  destruct (block_without_text_result (VStr "Final") VNone VNone
              (sample_block VNone (VStr "3") (VStr "1"))) as (H & _).
  apply H. reflexivity.
Defined.

(** ** Feature building on any table *)

Lemma sort_values_unfold (by_ : string) (df : DataFrame) (keys : list value) :
  series df !! by_ = Some keys →
  sort_values by_ df
  = Ok {| columns := columns df;
          index := reorder 0%nat (sort_order keys) (index df);
          series := reorder VNone (sort_order keys) <$> series df |}.
Proof. intros H. unfold sort_values. by rewrite H. Qed.

Lemma sort_order_Permutation (keys : list value) :
  sort_order keys ≡ₚ seq 0 (length keys).
Proof.
  unfold sort_order. rewrite merge_sort_Permutation.
  by rewrite snd_zip by (by rewrite length_seq).
Qed.

Lemma reorder_seq {A} (d : A) (l : list A) : reorder d (seq 0 (length l)) l = l.
Proof.
  unfold reorder. apply list_eq. intros i. rewrite list_lookup_fmap.
  destruct (decide (i < length l)%nat) as [Hi|Hi].
  - rewrite lookup_seq_lt by done. cbn.
    destruct (lookup_lt_is_Some_2 l i Hi) as [x Hx]. by rewrite Hx.
  - rewrite lookup_seq_ge by lia. cbn. symmetry. apply lookup_ge_None_2. lia.
Qed.

(** Sorting permutes the cells of every column. *)
Lemma reorder_Permutation {A} (d : A) (keys : list value) (l : list A) :
  length l = length keys → reorder d (sort_order keys) l ≡ₚ l.
Proof.
  intros Hl. rewrite <- (reorder_seq d l) at 2. unfold reorder.
  apply fmap_Permutation. rewrite Hl. apply sort_order_Permutation.
Qed.


Lemma define_label_raises (r : value) (e : exn) :
  (define_label r).2 = Raise e → ∃ msg, e = ValueError msg.
Proof.
  unfold define_label. destruct r as [| | |s|]; try (intros [= <-]; eauto).
  destruct (PyStr.contains ":" s); [|intros [= <-]; eauto].
  destruct (PyStr.split ":" s) as [|p0 [|p1 rest]]; try (intros [= <-]; eauto).
  destruct (PyStr.int p0); [|intros [= <-]; eauto].
  destruct (PyStr.int p1); [done|intros [= <-]; eauto].
Qed.


Lemma apply_labels_labels (cells labels : list value) (lg : list log_record) :
  apply_labels cells = (lg, Ok labels) →
  length labels = length cells ∧ Forall is_label labels.
Proof.
  revert lg labels. induction cells as [|r cells IH]; intros lg labels.
  - by intros [= _ <-].
  - cbn [apply_labels].
    destruct (define_label r) as [lg1 [l|e]] eqn:Hd; [|done].
    destruct (apply_labels cells) as [lg2 [ls|e]]; [|done].
    cbn [mbind result_bind]. intros [= _ <-].
    destruct (IH _ _ eq_refl) as [Hlen Hall]. split; [cbn; by rewrite Hlen|].
    constructor; [|done].
    assert (Hl : (define_label r).2 = Ok l) by (by rewrite Hd).
    apply define_label_parts in Hl as (h & a & _ & ->).
    unfold is_label. destruct (h >? a); auto.
Qed.

Lemma apply_labels_raises (cells : list value) :
  ¬ Forall (λ r, is_Some (score_parts r)) cells →
  ∃ msg, (apply_labels cells).2 = Raise (ValueError msg).
Proof.
  induction cells as [|r cells IH]; intros Hn.
  - by destruct Hn.
  - cbn [apply_labels].
    destruct (define_label r) as [lg1 [l|e]] eqn:Hd.
    + assert (Hl : (define_label r).2 = Ok l) by (by rewrite Hd).
      apply define_label_parts in Hl as (h & a & Hp & _).
      destruct IH as [msg Hm].
      { intros Hall. apply Hn. constructor; [by rewrite Hp | done]. }
      destruct (apply_labels cells) as [lg2 [ls|e]]; [done|].
      cbn in *. exists msg. by injection Hm as ->.
    + assert (He : (define_label r).2 = Raise e) by (by rewrite Hd).
      apply define_label_raises in He as [msg ->]. by exists msg.
Qed.

Lemma getcol_fmap (cols : list string) (idx : list nat)
    (m : gmap string (list value)) (f : list value → list value)
    (c : string) (cells : list value) :
  m !! c = Some cells →
  getcol {| columns := cols; index := idx; series := f <$> m |} c = Ok (f cells).
Proof. intros H. unfold getcol. cbn [series]. by rewrite lookup_fmap, H. Qed.




(** X12. A result the label function does not accept stops feature
    building with a [ValueError], wherever the row stands in the table:
    no feature table is produced for the rows that could be labelled. *)
Theorem build_features_rejects_unlabelled (df : DataFrame) :
  wf_frame df → "seriesStartDate" ∈ columns df → "result" ∈ columns df →
  ¬ Forall (λ r, is_Some (score_parts r)) (column df "result") →
  ∃ lg msg, build_features df = (lg, Raise (ValueError msg)).
Proof.
  intros Hwf Hk Hr Hbad.
  destruct (wf_column df Hwf _ Hk) as [Hkeys Hklen].
  destruct (wf_column df Hwf _ Hr) as [Hres Hrlen].
  assert (Hperm : reorder VNone (sort_order (column df "seriesStartDate"))
                    (column df "result") ≡ₚ column df "result")
    by (apply reorder_Permutation; lia).
  destruct (apply_labels_raises
              (reorder VNone (sort_order (column df "seriesStartDate"))
                 (column df "result"))) as [msg Hm]; [by rewrite Hperm|].
  unfold build_features. rewrite (sort_values_unfold _ _ _ Hkeys).
  rewrite (getcol_fmap _ _ _ _ "result" _ Hres).
  destruct (apply_labels _) as [lg [labels|e]]; [done|].
  cbn in Hm. injection Hm as ->. by exists lg, msg.
Qed.

Lemma build_features_rejects_unlabelled_witness :
  ∃ lg msg,
    build_features
      (frame_of_rows enriched_columns
         [sample_enriched_row "3:1" "Australian Open";
          sample_enriched_row "retired" "Australian Open"])
    = (lg, Raise (ValueError msg)).
Proof.
  apply build_features_rejects_unlabelled.
  - apply (bool_decide_unpack _). vm_compute. exact I.
  - apply (bool_decide_unpack _). vm_compute. exact I.
  - apply (bool_decide_unpack _). vm_compute. exact I.
  - intros H. apply Forall_cons in H as [_ H]. apply Forall_cons in H as [H _].
    vm_compute in H. by destruct H.
Defined.

Lemma build_features_labels (df features : DataFrame) (lg : list log_record) :
  build_features df = (lg, Ok features) →
  ∃ labels, series features !! "result" = Some labels ∧ Forall is_label labels.
Proof.
  unfold build_features.
  destruct (sort_values _ df) as [data|]; [|done].
  destruct (getcol data "result") as [results|]; [|done].
  destruct (apply_labels results) as [lg0 [labels|e]] eqn:Ha; [|done].
  cbn [mbind result_bind].
  destruct (getcol data "id_home"); [|done]. cbn [mbind result_bind].
  destruct (getcol data "id_away"); [|done]. cbn [mbind result_bind].
  destruct (getcol data "birthdate_home"); [|done]. cbn [mbind result_bind].
  destruct (getcol data "birthdate_away"); [|done]. cbn [mbind result_bind].
  destruct (try_column data "uniqueTournament" _) as [lg1 [ts|e]]; [|done].
  destruct (try_column data "round_description" _) as [lg2 [rds|e]]; [|done].
  intros [= _ <-]. exists labels. split.
  - cbn [series app fmap]. by rewrite ?list_to_map_cons, lookup_insert_eq.
  - by apply apply_labels_labels in Ha as [_ ?].
Qed.

(** X13. The labels of a feature table that feature building produced
    are all known to the trainer: its mapping of the label column
    gives 0 or 1 for every row, never a missing value. *)
Theorem training_labels_are_binary
    (df features : DataFrame) (lg : list log_record) :
  build_features df = (lg, Ok features) →
  ∃ y, training_labels features = Ok y ∧
       Forall (λ v, v = VInt 0 ∨ v = VInt 1) y.
Proof.
  intros (labels & Hl & Hall)%build_features_labels.
  unfold training_labels, getcol. rewrite Hl. cbn [mbind result_bind].
  eexists. split; [reflexivity|]. unfold series_map.
  apply Forall_fmap. eapply Forall_impl; [exact Hall|].
  intros v [-> | ->]; cbn; auto.
Qed.

Lemma training_labels_are_binary_witness :
  ∃ y,
    training_labels
      (match build_features
               (frame_of_rows enriched_columns
                  [sample_enriched_row "3:1" "Australian Open"]) with
       | (_, Ok features) => features
       | _ => frame_of_rows [] []
       end) = Ok y ∧
    Forall (λ v, v = VInt 0 ∨ v = VInt 1) y.
Proof.
  destruct (build_features _) as [lg [features|e]] eqn:E.
  - exact (training_labels_are_binary _ _ _ E).
  - vm_compute in E. discriminate E.
Defined.

(** ** Match extraction after roster extraction *)

Lemma same_ids_refl (p : Participant) : same_ids p p.
Proof. done. Qed.

Lemma same_block_refl (b : Block) : same_block b b.
Proof. split; [done|]. apply Forall2_same_length_lookup_2; [done|]. by intros ??? -> [= ->]. Qed.

Lemma same_round_refl (r : Round) : same_round r r.
Proof.
  split; [done|]. destruct (blocks r) as [bs|]; [|done].
  induction bs; constructor; [apply same_block_refl | done].
Qed.

Lemma same_bracket_refl (c : Bracket) : same_bracket c c.
Proof.
  split_and!; [done..|]. destruct (rounds c) as [rs|]; [|done].
  induction rs; constructor; [apply same_round_refl | done].
Qed.

Lemma visit_participant_same (p : Participant) :
  same_ids (visit_participant p).1 p.
Proof.
  unfold same_ids, visit_participant, team_id.
  destruct (team p) as [t|] eqn:Ht; cbn [fst team]; [|by rewrite Ht].
  unfold stamp_team. by rewrite !get_insert_ne.
Qed.

Lemma visit_participants_same (ps : list Participant) :
  Forall2 same_ids (visit_participants ps).1 ps.
Proof.
  induction ps as [|p ps IH]; [constructor|]. cbn [visit_participants].
  pose proof (visit_participant_same p) as Hp.
  destruct (visit_participant p) as [p' t].
  destruct (visit_participants ps) as [ps' ts]. by constructor.
Qed.

Lemma visit_block_same (b : Block) : same_block (visit_block b).1 b.
Proof.
  unfold visit_block. destruct (participants b) as [ps|] eqn:Hp;
    [|apply same_block_refl].
  pose proof (visit_participants_same ps) as H.
  destruct (visit_participants ps) as [ps' ts].
  split; [done|]. cbn [fst participants default id]. by rewrite Hp.
Qed.

Lemma visit_blocks_same (bs : list Block) :
  Forall2 same_block (visit_blocks bs).1 bs.
Proof.
  induction bs as [|b bs IH]; [constructor|]. cbn [visit_blocks].
  pose proof (visit_block_same b) as Hb.
  destruct (visit_block b) as [b' ts].
  destruct (visit_blocks bs) as [bs' ts']. by constructor.
Qed.

Lemma visit_round_same (r : Round) : same_round (visit_round r).1 r.
Proof.
  unfold visit_round. destruct (blocks r) as [bs|] eqn:Hb;
    [|apply same_round_refl].
  pose proof (visit_blocks_same bs) as H.
  destruct (visit_blocks bs) as [bs' ts].
  split; [done|]. cbn [fst blocks]. by rewrite Hb.
Qed.

Lemma visit_rounds_same (rs : list Round) :
  Forall2 same_round (visit_rounds rs).1 rs.
Proof.
  induction rs as [|r rs IH]; [constructor|]. cbn [visit_rounds].
  pose proof (visit_round_same r) as Hr.
  destruct (visit_round r) as [r' ts].
  destruct (visit_rounds rs) as [rs' ts']. by constructor.
Qed.

Lemma brackets_same_refl (cs : list Bracket) : Forall2 same_bracket cs cs.
Proof. induction cs; constructor; [apply same_bracket_refl | done]. Qed.

Lemma visit_brackets_same (cs : list Bracket) :
  Forall2 same_bracket (visit_brackets cs).1 cs.
Proof.
  induction cs as [|c cs IH]; [constructor|]. cbn [visit_brackets].
  destruct (rounds c) as [rs|] eqn:Hr; [|apply brackets_same_refl].
  pose proof (visit_rounds_same rs) as H.
  destruct (visit_rounds rs) as [rs' ts].
  destruct (visit_brackets cs) as [cs' r]. constructor; [|done].
  split_and!; [done..|]. cbn [rounds]. by rewrite Hr.
Qed.

Lemma get_all_participants_same (doc : list Bracket) :
  Forall2 same_bracket (get_all_participants doc).1 doc.
Proof.
  unfold get_all_participants.
  destruct (forallb _ doc); [apply brackets_same_refl|].
  pose proof (visit_brackets_same doc) as H.
  by destruct (visit_brackets doc) as [doc' r].
Qed.

Lemma emit_block_same (rd tn ut : value) (b b' : Block) :
  same_block b b' → emit_block rd tn ut b = emit_block rd tn ut b'.
Proof.
  intros [Hf Hp]. unfold emit_block. rewrite Hf.
  destruct Hp as [|p0 p0' rest rest' H0 Hrest]; [done|].
  unfold same_ids in H0. rewrite H0.
  destruct Hrest as [|p1 p1' ? ? H1 _]; [done|].
  unfold same_ids in H1. by rewrite H1.
Qed.

Lemma rewrite_result_same (b b' : Block) :
  same_block b b' →
  match rewrite_result b, rewrite_result b' with
  | Ok b1, Ok b1' => same_block b1 b1'
  | Raise e, Raise e' => e = e'
  | _, _ => False
  end.
Proof.
  intros [Hf Hp]. unfold rewrite_result. rewrite Hf.
  destruct (is_sentinel _); [|by split].
  destruct (score_string (b_fields b')); cbn [mbind result_bind]; [|done].
  by split.
Qed.

Lemma extract_block_same (rd tn ut : value) (b b' : Block) :
  same_block b b' →
  same_block (extract_block rd tn ut b).1.1 (extract_block rd tn ut b').1.1 ∧
  (extract_block rd tn ut b).1.2 = (extract_block rd tn ut b').1.2 ∧
  (extract_block rd tn ut b).2 = (extract_block rd tn ut b').2.
Proof.
  intros Hs. pose proof (rewrite_result_same b b' Hs) as Hw.
  unfold extract_block. destruct Hs as [Hf Hp]. rewrite Hf.
  destruct (is_skipped _) as [[|]|]; [by split_and!; [split|..]| |by split_and!; [split|..]].
  destruct (rewrite_result b) as [b1|e], (rewrite_result b') as [b1'|e'];
    try done; [|subst; by split_and!; [split|..]].
  pose proof Hw as [Hf1 _]. rewrite Hf1.
  destruct (validate_score_format _); cbn [fst snd]; [|by split_and!].
  split_and!; [done..|]. by apply emit_block_same.
Qed.

Lemma extract_blocks_same (rd tn ut : value) (bs bs' : list Block) :
  Forall2 same_block bs bs' →
  (extract_blocks rd tn ut bs).1.2 = (extract_blocks rd tn ut bs').1.2 ∧
  (extract_blocks rd tn ut bs).2 = (extract_blocks rd tn ut bs').2.
Proof.
  induction 1 as [|b b' bs bs' Hb _ [IH1 IH2]]; [done|]. cbn [extract_blocks].
  destruct (extract_block_same rd tn ut b b' Hb) as (_ & H1 & H2).
  destruct (extract_block rd tn ut b) as [[b1 lg] r].
  destruct (extract_block rd tn ut b') as [[b1' lg'] r'].
  cbn [fst snd] in *. subst. destruct r' as [g|e]; [|done].
  destruct (extract_blocks rd tn ut bs) as [[bs1 lg1] r1].
  destruct (extract_blocks rd tn ut bs') as [[bs1' lg1'] r1'].
  cbn [fst snd] in *. by subst.
Qed.

Lemma extract_rounds_same (tn ut : value) (rs rs' : list Round) :
  Forall2 same_round rs rs' →
  (extract_rounds tn ut rs).1.2 = (extract_rounds tn ut rs').1.2 ∧
  (extract_rounds tn ut rs).2 = (extract_rounds tn ut rs').2.
Proof.
  induction 1 as [|r r' rs rs' Hr _ [IH1 IH2]]; [done|]. cbn [extract_rounds].
  assert ((extract_round tn ut r).1.2 = (extract_round tn ut r').1.2
          ∧ (extract_round tn ut r).2 = (extract_round tn ut r').2) as [H1 H2].
  { unfold extract_round. destruct Hr as [Hf Hb]. rewrite Hf.
    destruct (blocks r) as [bs|], (blocks r') as [bs'|]; try done.
    destruct (extract_blocks_same (get (r_fields r') "description") tn ut bs bs' Hb)
      as [H1 H2].
    destruct (extract_blocks _ tn ut bs) as [[bs1 lg] res].
    by destruct (extract_blocks _ tn ut bs') as [[bs1' lg'] res']. }
  destruct (extract_round tn ut r) as [[r1 lg] res].
  destruct (extract_round tn ut r') as [[r1' lg'] res'].
  cbn [fst snd] in *. subst. destruct res' as [gs|e]; [|done].
  destruct (extract_rounds tn ut rs) as [[rs1 lg1] res1].
  destruct (extract_rounds tn ut rs') as [[rs1' lg1'] res1'].
  cbn [fst snd] in *. by subst.
Qed.

Lemma extract_brackets_same (cs cs' : list Bracket) :
  Forall2 same_bracket cs cs' →
  (extract_brackets cs).1.2 = (extract_brackets cs').1.2 ∧
  (extract_brackets cs).2 = (extract_brackets cs').2.
Proof.
  induction 1 as [|c c' cs cs' Hc _ [IH1 IH2]]; [done|]. cbn [extract_brackets].
  assert ((extract_bracket c).1.2 = (extract_bracket c').1.2
          ∧ (extract_bracket c).2 = (extract_bracket c').2) as [H1 H2].
  { unfold extract_bracket. destruct Hc as (Htn & Hut & Hr). rewrite Htn, Hut.
    destruct (rounds c) as [rs|], (rounds c') as [rs'|]; try done.
    destruct (extract_rounds_same (tournamentName c') (uniqueTournamentName c')
                rs rs' Hr) as [H1 H2].
    destruct (extract_rounds _ _ rs) as [[rs1 lg] res].
    by destruct (extract_rounds _ _ rs') as [[rs1' lg'] res']. }
  destruct (extract_bracket c) as [[c1 lg] res].
  destruct (extract_bracket c') as [[c1' lg'] res'].
  cbn [fst snd] in *. subst. destruct res' as [gs|e]; [|done].
  destruct (extract_brackets cs) as [[cs1 lg1] res1].
  destruct (extract_brackets cs') as [[cs1' lg1'] res1'].
  cbn [fst snd] in *. by subst.
Qed.

Lemma extract_after_roster (doc : list Bracket) :
  (extract_games_from_cuptree (get_all_participants doc).1).1.2
  = (extract_games_from_cuptree doc).1.2 ∧
  (extract_games_from_cuptree (get_all_participants doc).1).2
  = (extract_games_from_cuptree doc).2.
Proof.
  destruct (extract_brackets_same _ _ (get_all_participants_same doc)) as [H1 H2].
  unfold extract_games_from_cuptree.
  destruct (extract_brackets (get_all_participants doc).1) as [[cs lg] res].
  destruct (extract_brackets doc) as [[cs' lg'] res'].
  cbn [fst snd] in *. by subst.
Qed.

(** X14. What roster extraction writes into the document does not show
    in match extraction: run on the document roster extraction left
    behind, as [process_all_data] does, match extraction logs the same
    records and returns the same table or raises the same exception as
    on the document as loaded. *)
Theorem extraction_blind_to_roster_stamps (doc : list Bracket) :
  (extract_games_from_cuptree (get_all_participants doc).1).1.2
  = (extract_games_from_cuptree doc).1.2 ∧
  (extract_games_from_cuptree (get_all_participants doc).1).2
  = (extract_games_from_cuptree doc).2.
Proof.
  pose proof (get_all_participants_same doc) as Hsame.
  destruct (extract_brackets_same _ _ Hsame) as [Hlog Hres].
  unfold extract_games_from_cuptree.
  destruct (extract_brackets (get_all_participants doc).1) as [[cs lg] res].
  destruct (extract_brackets doc) as [[cs' lg'] res'].
  cbn [fst snd] in *. by subst.
Qed.

Lemma process_files_games (files docs : list (list Bracket))
    (lg : list log_record) (pl : list (list ParticipantRecord))
    (gl : list (list MatchRecord)) :
  process_files files = (docs, lg, Ok (pl, gl)) →
  Forall2 (λ f gs, (extract_games_from_cuptree f).2 = Ok gs) files gl ∧
  lg = files ≫= (λ f, (extract_games_from_cuptree f).1.2).
Proof.
  revert docs lg pl gl. induction files as [|f files IH]; intros docs lg pl gl.
  - intros [= _ <- _ <-]. by split.
  - cbn [process_files].
    destruct (extract_after_roster f) as [Hlg Hres].
    destruct (get_all_participants f) as [f1 [ps|e]]; [|done].
    cbn [fst] in *.
    destruct (extract_games_from_cuptree f1) as [[f2 lg1] [gs|e]]; [|done].
    destruct (process_files files) as [[docs1 lg2] [[pl1 gl1]|e]]; [|done].
    cbn [mbind result_bind fst snd] in *. intros [= _ <- _ <-].
    destruct (IH _ _ _ _ eq_refl) as [H1 H2]. split.
    + by constructor.
    + rewrite bind_cons. by rewrite <- Hlg, <- H2.
Qed.

(** X15. The match table of a run is the concatenation, in the order of
    the files, of the tables match extraction gives for each file
    taken alone, and the log of the run is the concatenation of their
    logs: no file influences the records of another. *)
Theorem run_games_are_per_file
    (max_cuptrees : option nat) (files docs : list (list Bracket))
    (lg : list log_record) (t : Tables) :
  process_all_data max_cuptrees files = (docs, lg, inr t) →
  ∃ gl,
    Forall2 (λ f gs, (extract_games_from_cuptree f).2 = Ok gs)
      (match max_cuptrees with Some n => take n files | None => files end) gl ∧
    tbl_games t = concat gl ∧
    lg = (match max_cuptrees with Some n => take n files | None => files end)
           ≫= (λ f, (extract_games_from_cuptree f).1.2).
Proof.
  unfold process_all_data. destruct files as [|f files]; [done|].
  destruct (process_files _) as [[docs' lg'] [[pl gl]|e]] eqn:Hr; [|done].
  intros [= _ <- <-]. exists gl.
  destruct (process_files_games _ _ _ _ _ Hr) as [H1 H2]. by split_and!.
Qed.

Lemma run_games_are_per_file_witness :
  ∃ t gl,
    (process_all_data None
       [[sample_bracket "Final" [sample_block (VStr "3:1") (VStr "3") (VStr "1")]];
        [sample_bracket "Final" [sample_block (VStr "0:3") (VStr "0") (VStr "3")]]]).2
    = inr t ∧
    tbl_games t = concat gl ∧ length gl = 2%nat.
Proof.
  destruct (process_all_data _ _) as [[docs lg] r] eqn:E.
  assert (∃ t, r = inr t) as [t ->].
  { vm_compute in E. injection E as _ _ <-. eauto. }
  destruct (run_games_are_per_file _ _ _ _ _ E) as (gl & H1 & H2 & _).
  exists t, gl. split_and!; [reflexivity | exact H2 |].
  by apply Forall2_length in H1.
Defined.
